(** * Verification of [RateLimiter] from semanager.py

    The Python class keeps a list of admission timestamps and, on every
    [wait()], prunes the entries older than [interval], sleeps when the
    retained count has reached [calls_per_interval], and appends a fresh
    clock reading.

    Time is modelled by rationals ([Q], compared up to [==]); the rounding of
    Python floats is not modelled.  The two readings of [time.time()] made by
    one call are inputs of the model ([now] before the test, [after] for the
    appended stamp), so that every clock behaviour, including a clock that
    jumps backward, is a choice of readings. *)

From Stdlib Require Import List ZArith QArith Qminmax Lia Lqa Bool Sorting.Sorted.
Import ListNotations.
From Stdlib Require Import Sorting.Permutation QArith.Qround.
From Stdlib Require Strings.String Strings.Ascii.
Import String.StringSyntax.
Delimit Scope string_scope with string.

Local Open Scope Z_scope.
Local Open Scope Q_scope.

(** ** Python exceptions and the state-and-exception monad *)

Inductive error : Type :=
| IndexError   (* list index out of range *)
| ValueError   (* time.sleep: sleep length must be non-negative *)
| OverflowError. (* time.sleep: timestamp too large to convert to C _PyTime_t *)

Inductive result (A : Type) : Type :=
| Ok (a : A)
| Raise (e : error).
Arguments Ok {A} a.
Arguments Raise {A} e.

(** ** The object *)

Record RateLimiter : Type := mkRateLimiter {
  calls_per_interval : Z;
  interval : Q;
  calls : list Q
}.

Definition set_calls (self : RateLimiter) (l : list Q) : RateLimiter :=
  {| calls_per_interval := calls_per_interval self;
     interval := interval self;
     calls := l |}.

(** A method body is a function from the object to an outcome together with
    the object as the body left it: an assignment to [self.calls] made before
    an exception is raised stays visible. *)
Definition M (A : Type) : Type := RateLimiter -> result A * RateLimiter.

Definition ret {A} (a : A) : M A := fun self => (Ok a, self).
Definition raise {A} (e : error) : M A := fun self => (Raise e, self).
Definition bind {A B} (m : M A) (k : A -> M B) : M B :=
  fun self =>
    match m self with
    | (Ok a, self') => k a self'
    | (Raise e, self') => (Raise e, self')
    end.
Definition get {A} (field : RateLimiter -> A) : M A :=
  fun self => (Ok (field self), self).
Definition assign_calls (l : list Q) : M unit :=
  fun self => (Ok tt, set_calls self l).

Notation "x <- m ;; k" := (bind m (fun x => k))
  (at level 61, m at next level, right associativity).
Notation "m ;;; k" := (bind m (fun _ => k))
  (at level 61, right associativity).

(** ** Library operations used by the method *)

Definition Qltb (x y : Q) : bool := negb (Qle_bool y x).

(** [l[0]] *)
Definition index0 (l : list Q) : M Q :=
  match l with
  | [] => raise IndexError
  | t :: _ => ret t
  end.

(** [time.sleep(secs)] for a length the platform can represent: refuses a
    negative length.  The limit on the length is in [time_sleep_checked]
    below, with the method run against it. *)
Definition time_sleep (secs : Q) : M unit :=
  if Qltb secs 0 then raise ValueError else ret tt.

(** ** [RateLimiter.__init__] *)

Definition init (cpi : Z) (iv : Q) : result RateLimiter :=
  Ok {| calls_per_interval := cpi; interval := iv; calls := [] |}.

(** The list comprehension [[t for t in self.calls if now - t < self.interval]]. *)
Definition prune (iv now : Q) (l : list Q) : list Q :=
  filter (fun t => Qltb (now - t) iv) l.

(** ** [RateLimiter.wait]

    The result is the length of the sleep that was requested, [None] when
    [time.sleep] was not called. *)
Definition wait (now after : Q) : M (option Q) :=
  cs <- get calls ;;
  iv <- get interval ;;
  assign_calls (prune iv now cs) ;;;
  cs <- get calls ;;
  cpi <- get calls_per_interval ;;
  slept <- (if (Z.of_nat (length cs) >=? cpi)%Z
            then
              t0 <- index0 cs ;;
              let sleep_time := iv - (now - t0) in
              time_sleep sleep_time ;;;
              ret (Some sleep_time)
            else ret None) ;;
  cs <- get calls ;;
  assign_calls (cs ++ [after]) ;;;
  ret slept.

(** Time spent in [time.sleep] by a call. *)
Definition slept (s : option Q) : Q :=
  match s with
  | Some d => d
  | None => 0
  end.

(** The sleep that a call entered at [now] requests; it does not depend on
    the second reading. *)
Definition sleep_request (self : RateLimiter) (now : Q) : result (option Q) :=
  fst (wait now now self).

(** ** Sequences of calls *)

(** A call is given by its two clock readings [(now, after)]. *)
Definition readings : Type := (Q * Q)%type.

Fixpoint wait_all (tr : list readings) : M (list (option Q)) :=
  match tr with
  | [] => ret []
  | (now, after) :: tr' =>
      s <- wait now after ;;
      ss <- wait_all tr' ;;
      ret (s :: ss)
  end.

(** The stamps appended by the calls of a trace: the admission history. *)
Definition admissions (tr : list readings) : list Q := map snd tr.

(** The last reading made, [t0] before any call. *)
Definition last_reading (t0 : Q) (tr : list readings) : Q :=
  last (admissions tr) t0.

(** The clock of a trace is honest when its readings never decrease and the
    reading taken after [time.sleep(d)] is at least [d] later than the one
    taken before it. *)
Fixpoint clock_ok (prev : Q) (tr : list readings) (self : RateLimiter) : bool :=
  match tr with
  | [] => true
  | (now, after) :: tr' =>
      Qle_bool prev now &&
      match wait now after self with
      | (Ok s, self') => Qle_bool (now + slept s) after && clock_ok after tr' self'
      | (Raise _, _) => true
      end
  end.

(** Admissions inside the trailing window [(T - W, T]]. *)
Definition in_window (W T a : Q) : bool := Qltb (T - W) a && Qle_bool a T.
Definition admitted_in (W T : Q) (h : list Q) : nat :=
  length (filter (in_window W T) h).

(** ** [time.sleep] with its limit

    CPython turns the length into a signed 64-bit count of nanoseconds,
    rounding away from zero, raises [OverflowError] when the count does not
    fit, and only then refuses a negative count.  The count is computed here
    on rationals, not on doubles. *)

Definition sleep_limit_ns : Z := 2 ^ 63.

Definition sleep_ns (secs : Q) : Z :=
  if Qltb secs 0 then Qfloor (secs * 1000000000)
  else Qceiling (secs * 1000000000).

Definition time_sleep_checked (secs : Q) : M unit :=
  let ns := sleep_ns secs in
  if ((ns <? - sleep_limit_ns) || (sleep_limit_ns <=? ns))%Z
  then raise OverflowError
  else if (ns <? 0)%Z then raise ValueError
  else ret tt.

(** [RateLimiter.wait] over a given [time.sleep]. *)
Definition wait_with (sleep : Q -> M unit) (now after : Q) : M (option Q) :=
  cs <- get calls ;;
  iv <- get interval ;;
  assign_calls (prune iv now cs) ;;;
  cs <- get calls ;;
  cpi <- get calls_per_interval ;;
  slept <- (if (Z.of_nat (length cs) >=? cpi)%Z
            then
              t0 <- index0 cs ;;
              let sleep_time := iv - (now - t0) in
              sleep sleep_time ;;;
              ret (Some sleep_time)
            else ret None) ;;
  cs <- get calls ;;
  assign_calls (cs ++ [after]) ;;;
  ret slept.

Definition wait_checked : Q -> Q -> M (option Q) := wait_with time_sleep_checked.

Fixpoint wait_all_checked (tr : list readings) : M (list (option Q)) :=
  match tr with
  | [] => ret []
  | (now, after) :: tr' =>
      s <- wait_checked now after ;;
      ss <- wait_all_checked tr' ;;
      ret (s :: ss)
  end.


(** Each call is entered more than [g] after the stamp the call before it
    recorded, and records its stamp no earlier than it was entered. *)
Fixpoint spaced_readings (g : Q) (prev : option Q) (tr : list readings) : Prop :=
  match tr with
  | [] => True
  | (now, after) :: tr' =>
      match prev with
      | Some p => g < now - p
      | None => True
      end /\
      now <= after /\ spaced_readings g (Some after) tr'
  end.

(** ** The idealised clock

    Code takes no time, [time.sleep(d)] takes exactly [d], and a call that
    arrives while the previous one is still blocked starts when that one
    returns. *)
Fixpoint ideal_trace (clock : Q) (arrivals : list Q) (self : RateLimiter)
  : list readings :=
  match arrivals with
  | [] => []
  | a :: arrivals' =>
      let now := Qmax clock a in
      let after := now + slept (match sleep_request self now with
                                | Ok s => s
                                | Raise _ => None
                                end) in
      (now, after) :: ideal_trace after arrivals' (snd (wait now after self))
  end.

Definition ideal_run (clock : Q) (arrivals : list Q) : M (list (option Q)) :=
  fun self => wait_all (ideal_trace clock arrivals self) self.

(** ** What one call does, in closed form *)

Definition wait_outcome (now after : Q) (self : RateLimiter)
  : result (option Q) * RateLimiter :=
  let kept := prune (interval self) now (calls self) in
  if (Z.of_nat (length kept) >=? calls_per_interval self)%Z then
    match kept with
    | [] => (Raise IndexError, set_calls self [])
    | t0 :: _ => (Ok (Some (interval self - (now - t0))),
                  set_calls self (kept ++ [after]))
    end
  else (Ok None, set_calls self (kept ++ [after])).


(** ** Invariant of a run and spacing of arrivals *)

(** [h] is the whole admission history, [prev] the latest clock reading. *)
Record Inv (cap : Z) (W : Q) (prev : Q) (h : list Q) (self : RateLimiter) : Prop := {
  inv_cap : calls_per_interval self = cap;
  inv_iv : interval self = W;
  inv_hist_le : forall t, In t h -> t <= prev;
  inv_calls_le : forall t, In t (calls self) -> t <= prev;
  inv_sorted : StronglySorted Qle (calls self);
  inv_hist_sorted : StronglySorted Qle h;
  inv_len : (Z.of_nat (length (calls self)) <= cap + 1)%Z;
  inv_live : forall x, prev <= x -> prune W x (calls self) = prune W x h;
  inv_budget : forall x, prev <= x ->
                 (Z.of_nat (length (prune W x h)) <= cap)%Z;
  inv_window : forall T, (Z.of_nat (admitted_in W T h) <= cap)%Z
}.
Arguments inv_cap {cap W prev h self} _.
Arguments inv_iv {cap W prev h self} _.
Arguments inv_hist_le {cap W prev h self} _.
Arguments inv_calls_le {cap W prev h self} _.
Arguments inv_sorted {cap W prev h self} _.
Arguments inv_hist_sorted {cap W prev h self} _.
Arguments inv_len {cap W prev h self} _.
Arguments inv_live {cap W prev h self} _.
Arguments inv_budget {cap W prev h self} _.
Arguments inv_window {cap W prev h self} _.

(** Consecutive arrivals are more than [g] apart. *)
Fixpoint spaced (g : Q) (l : list Q) : Prop :=
  match l with
  | a :: (b :: _) as l' => g < b - a /\ spaced g l'
  | _ => True
  end.

(** [x] and then the stamps of [l], newest first, are more than [g] apart. *)
Fixpoint chain (g x : Q) (l : list Q) : Prop :=
  match l with
  | [] => True
  | t :: l' => g < x - t /\ chain g t l'
  end.

(** ** A concrete limiter: three calls per ten seconds *)

Definition demo_limiter : RateLimiter :=
  {| calls_per_interval := 3; interval := 10; calls := [] |}.

Definition demo_arrivals : list Q := [0; 0; 0; 1 # 10; 11].

(** The readings the idealised clock gives for [demo_arrivals]. *)
Definition demo_trace : list readings :=
  [(0, 0); (0, 0); (0, 0); (1 # 10, 10); (11, 11)].

Definition Qred_readings (r : readings) : readings :=
  (Qred (fst r), Qred (snd r)).

(** A requested sleep is a positive length. *)
Definition positive_sleep (s : option Q) : Prop :=
  match s with
  | Some d => 0 < d
  | None => True
  end.

(** A requested sleep lies in [(0, W]]. *)
Definition sleep_within (W : Q) (s : option Q) : Prop :=
  match s with
  | Some d => 0 < d /\ d <= W
  | None => True
  end.

(** Saturated runs: after [q * cap + c] calls the clock shows [t0 + q W] and exactly [c]
    stored stamps are alive, all equal to the clock. *)
Record Sat (cap : Z) (W t0 : Q) (q c : Z) (clock : Q) (self : RateLimiter) : Prop := {
  sat_cap : calls_per_interval self = cap;
  sat_iv : interval self = W;
  sat_clock : clock == t0 + inject_Z q * W;
  sat_count : Z.of_nat (length (prune W clock (calls self))) = c;
  sat_live : forall t, In t (prune W clock (calls self)) -> t == clock
}.
Arguments sat_cap {cap W t0 q c clock self} _.
Arguments sat_iv {cap W t0 q c clock self} _.
Arguments sat_clock {cap W t0 q c clock self} _.
Arguments sat_count {cap W t0 q c clock self} _.
Arguments sat_live {cap W t0 q c clock self} _.

(** * The application: strings and lists of [SpicetifyManager]

    A Python [str] is a list of Unicode code points.  The table behind
    [str.isspace] is a parameter [isspace] of the functions that strip. *)

Definition char : Type := N.
Definition str : Type := list char.

(** A literal of the source, written in ASCII. *)
Definition py (s : String.string) : str :=
  map Ascii.N_of_ascii (String.list_ascii_of_string s).
Arguments py s%_string.

Definition str_eqb (a b : str) : bool :=
  if list_eq_dec N.eq_dec a b then true else false.

(** [s.split(sep)] for a separator of one character. *)
Fixpoint split (sep : char) (s : str) : list str :=
  match s with
  | [] => [[]]
  | c :: s' =>
      if N.eqb c sep then [] :: split sep s'
      else match split sep s' with
           | [] => [[c]]
           | field :: fields => (c :: field) :: fields
           end
  end.

(** [sep.join(l)] *)
Fixpoint join (sep : str) (l : list str) : str :=
  match l with
  | [] => []
  | x :: l' =>
      match l' with
      | [] => x
      | _ :: _ => x ++ sep ++ join sep l'
      end
  end.

(** [s.lstrip()], [s.rstrip()] and [s.strip()]. *)
Fixpoint lstrip (isspace : char -> bool) (s : str) : str :=
  match s with
  | [] => []
  | c :: s' => if isspace c then lstrip isspace s' else s
  end.

Fixpoint rstrip (isspace : char -> bool) (s : str) : str :=
  match s with
  | [] => []
  | c :: s' =>
      match rstrip isspace s' with
      | [] => if isspace c then [] else [c]
      | r => c :: r
      end
  end.

Definition strip (isspace : char -> bool) (s : str) : str :=
  rstrip isspace (lstrip isspace s).

(** The truth value of a string: it is not empty. *)
Definition truthy (s : str) : bool :=
  match s with
  | [] => false
  | _ :: _ => true
  end.

(** The comprehension [[e.strip() for e in line.split(sep) if e.strip()]]. *)
Definition split_stripped (isspace : char -> bool) (sep : char) (line : str)
  : list str :=
  map (strip isspace)
      (filter (fun e => truthy (strip isspace e)) (split sep line)).

(** [load_config]: the value of [self.extensions] for the configured line. *)
Definition load_config_extensions (isspace : char -> bool) (extensions_line : str)
  : list str :=
  split_stripped isspace 124%N extensions_line.

(** [get_enabled_custom_apps] for the configured line. *)
Definition get_enabled_custom_apps (isspace : char -> bool) (apps_line : str)
  : list str :=
  split_stripped isspace 44%N apps_line.

(** A name the comprehension returns as it is: not empty, no white space at
    either end, no separator inside. *)
Definition tidy (isspace : char -> bool) (sep : char) (s : str) : bool :=
  match s with
  | [] => false
  | c :: _ =>
      negb (isspace c) && negb (isspace (last s c))
      && negb (existsb (N.eqb sep) s)
  end.

(** The white space of CPython's [str.isspace]. *)
Definition py_isspace (c : char) : bool :=
  ((9 <=? c) && (c <=? 13) || (28 <=? c) && (c <=? 32)
   || (c =? 133) || (c =? 160) || (c =? 5760)
   || (8192 <=? c) && (c <=? 8202)
   || (c =? 8232) || (c =? 8233) || (c =? 8239) || (c =? 8287)
   || (c =? 12288))%N.

(** ** Custom repositories *)

(** [l.remove(x)]: drops the first element equal to [x], [ValueError] when
    there is none. *)
Fixpoint list_remove (x : str) (l : list str) : result (list str) :=
  match l with
  | [] => Raise ValueError
  | y :: l' =>
      if str_eqb y x then Ok l'
      else match list_remove x l' with
           | Ok r => Ok (y :: r)
           | Raise e => Raise e
           end
  end.

(** [add_custom_repo]: [url] and [ok] are what the input dialog returned;
    the result is [self.custom_repos]. *)
Definition add_custom_repo (url : str) (ok : bool) (custom_repos : list str)
  : list str :=
  if ok && truthy url then custom_repos ++ [url] else custom_repos.

(** [remove_custom_repo]: [selected] are the texts of the selected items, in
    the order the loop visits them.  The list is returned as the loop left
    it, also when [remove] raised. *)
Fixpoint remove_custom_repo (selected : list str) (custom_repos : list str)
  : result unit * list str :=
  match selected with
  | [] => (Ok tt, custom_repos)
  | item :: selected' =>
      match list_remove item custom_repos with
      | Ok l => remove_custom_repo selected' l
      | Raise e => (Raise e, custom_repos)
      end
  end.

(** ** Regular expressions of the source

    The two patterns are matched by hand.  In both, every starred or plussed
    class is followed by something the class excludes, so the longest run is
    the only one that can lead to a match and backtracking into a run never
    succeeds; the optional [v] is tried both ways. *)

(** The longest prefix of characters of a class, and what follows it. *)
Fixpoint span (p : char -> bool) (s : str) : str * str :=
  match s with
  | [] => ([], [])
  | c :: s' =>
      if p c then let (run, rest) := span p s' in (c :: run, rest)
      else ([], s)
  end.

(** A run [\d+] followed by [\.]: the run and what follows the dot. *)
Definition digits_dot (isdigit : char -> bool) (s : str) : option (str * str) :=
  match span isdigit s with
  | ((_ :: _) as run, c :: rest) => if (c =? 46)%N then Some (run, rest) else None
  | _ => None
  end.

(** [\d+\.\d+\.\d+] at the head of [s]: the text matched. *)
Definition match_triple (isdigit : char -> bool) (s : str) : option str :=
  match digits_dot isdigit s with
  | Some (d1, s1) =>
      match digits_dot isdigit s1 with
      | Some (d2, s2) =>
          match span isdigit s2 with
          | ((_ :: _) as d3, _) => Some (d1 ++ [46%N] ++ d2 ++ [46%N] ++ d3)
          | _ => None
          end
      | None => None
      end
  | None => None
  end.

(** [v?(\d+\.\d+\.\d+)] at the head of [s]: group 1. *)
Definition match_version_at (isdigit : char -> bool) (s : str) : option str :=
  match s with
  | c :: s' =>
      if (c =? 118)%N then
        match match_triple isdigit s' with
        | Some g => Some g
        | None => match_triple isdigit s
        end
      else match_triple isdigit s
  | [] => None
  end.

(** [re.search]: the match at the leftmost position that has one. *)
Fixpoint re_search_version (isdigit : char -> bool) (s : str) : option str :=
  match match_version_at isdigit s with
  | Some g => Some g
  | None =>
      match s with
      | [] => None
      | _ :: s' => re_search_version isdigit s'
      end
  end.

(** [parse_spicetify_version].  [re.search] does not raise on a [str], so
    the handler returning ['0.0.0'] is not entered. *)
Definition parse_spicetify_version (isspace isdigit : char -> bool) (output : str)
  : str :=
  match re_search_version isdigit output with
  | Some g => g
  | None => strip (fun c => (c =? 118)%N) (strip isspace output)
  end.

(** ASCII digits, for examples; [\d] matches every Unicode decimal digit. *)
Definition ascii_isdigit (c : char) : bool := ((48 <=? c) && (c <=? 57))%N.

Definition in_range (lo hi c : char) : bool := ((lo <=? c) && (c <=? hi))%N.

(** [\x1B\[[0-?]*[ -/]*[@-~]] at the head of [s]: the length of the match. *)
Definition match_csi (s : str) : option nat :=
  match s with
  | esc :: bracket :: s1 =>
      if ((esc =? 27) && (bracket =? 91))%N then
        let (params, s2) := span (in_range 48%N 63%N) s1 in
        let (inters, s3) := span (in_range 32%N 47%N) s2 in
        match s3 with
        | final :: _ =>
            if in_range 64%N 126%N final
            then Some (2 + length params + length inters + 1)%nat
            else None
        | [] => None
        end
      else None
  | _ => None
  end.

(** [ansi_escape.sub('', message)]: scanning from the left, a match is
    dropped and the scan resumes after it; [skip] counts the characters of
    the current match still to be dropped. *)
Fixpoint sub_csi (skip : nat) (s : str) : str :=
  match s with
  | [] => []
  | c :: s' =>
      match skip with
      | S k => sub_csi k s'
      | O =>
          match match_csi s with
          | Some n => sub_csi (n - 1) s'
          | None => c :: sub_csi 0 s'
          end
      end
  end.

(** [log]: the text appended to the log widget. *)
Definition log (message : str) : str := sub_csi 0 message.

(** A control sequence: [ESC [], parameters, intermediates, a final byte. *)
Definition csi (params inters : str) (final : char) : str :=
  [27%N; 91%N] ++ params ++ inters ++ [final].

(** Three runs of digits joined by dots, and text occurring inside a text. *)
Definition dotted (d1 d2 d3 : str) : str := d1 ++ [46%N] ++ d2 ++ [46%N] ++ d3.

Definition digit_run (isdigit : char -> bool) (d : str) : Prop :=
  d <> [] /\ forallb isdigit d = true.

Definition well_formed_version (isdigit : char -> bool) (g : str) : Prop :=
  exists d1 d2 d3,
    g = dotted d1 d2 d3 /\
    digit_run isdigit d1 /\ digit_run isdigit d2 /\ digit_run isdigit d3.

Definition factor (g s : str) : Prop := exists pre post, s = pre ++ g ++ post.

(** The text does not begin with a character of the class. *)
Definition not_starting (p : char -> bool) (s : str) : Prop :=
  match s with
  | [] => True
  | c :: _ => p c = false
  end.

(** ** The extensions table and the custom-apps list *)

(** [s.startswith(p)], [s.endswith(p)] and [needle in hay]. *)
Fixpoint starts_with (p s : str) : bool :=
  match p, s with
  | [], _ => true
  | _ :: _, [] => false
  | a :: p', b :: s' => (a =? b)%N && starts_with p' s'
  end.

Definition ends_with (p s : str) : bool := starts_with (rev p) (rev s).

Fixpoint contains (needle hay : str) : bool :=
  starts_with needle hay
  || match hay with
     | [] => false
     | _ :: hay' => contains needle hay'
     end.

(** Order of [str] values: by code points, a proper prefix first. *)
Fixpoint str_leb (a b : str) : bool :=
  match a, b with
  | [], _ => true
  | _ :: _, [] => false
  | x :: a', y :: b' => (x <? y)%N || (x =? y)%N && str_leb a' b'
  end.

(** [list.sort(key=...)]: the stable sort, written as insertion from the
    left; [le k1 k2] is the order of the keys, [>=] for [reverse=True]. *)
Fixpoint insert_by {A K} (le : K -> K -> bool) (key : A -> K) (x : A)
    (sorted : list A) : list A :=
  match sorted with
  | [] => [x]
  | y :: sorted' =>
      if le (key y) (key x) then y :: insert_by le key x sorted'
      else x :: sorted
  end.

Definition sort_by_key {A K} (le : K -> K -> bool) (key : A -> K) (l : list A)
  : list A :=
  fold_left (fun sorted x => insert_by le key x sorted) l [].

(** [int(x)] of a float: truncation toward zero. *)
Definition py_int (x : Q) : Z := Z.quot (Qnum x) (Zpos (Qden x)).

(** An entry of [os.listdir(self.extensions_dir)] with its [os.stat]. *)
Record DirEntry : Type := mkDirEntry {
  entry_name : str;
  st_size : Z;
  st_mtime : Q
}.

(** The dictionaries built by [get_all_extensions]. *)
Record Extension : Type := mkExtension {
  name : str;
  size : Q;
  last_modified : Z
}.

(** A row of [self.extensions_table]: the tick and the three texts' sources. *)
Record Row : Type := mkRow {
  checked : bool;
  row_ext : Extension
}.

Definition get_all_extensions (files : list DirEntry) : list Extension :=
  map (fun f => {| name := entry_name f;
                   size := inject_Z (st_size f) / 1024;
                   last_modified := py_int (st_mtime f) |})
      (filter (fun f => ends_with (py ".js") (entry_name f)) files).

(** [populate_extensions]: [isdir] is [os.path.isdir(self.extensions_dir)],
    [search_input] and [sort_by] the texts of the two widgets, [extensions]
    is [self.extensions], [table] the rows shown before the call. *)
Definition populate_extensions (lower : str -> str) (isdir : bool)
    (files : list DirEntry) (search_input sort_by : str)
    (extensions : list str) (table : list Row) : list Row :=
  if negb isdir then table
  else
    let all_extensions := get_all_extensions files in
    let search_text := lower search_input in
    let all_extensions :=
      if truthy search_text
      then filter (fun ext => contains search_text (lower (name ext)))
                  all_extensions
      else all_extensions in
    let all_extensions :=
      if str_eqb sort_by (py "Name")
      then sort_by_key str_leb (fun x => lower (name x)) all_extensions
      else if str_eqb sort_by (py "Date Modified")
      then sort_by_key (fun a b => (b <=? a)%Z) last_modified all_extensions
      else all_extensions in
    map (fun ext => {| checked := existsb (str_eqb (name ext)) extensions;
                       row_ext := ext |})
        all_extensions.

(** [apply_changes]: the names of the ticked rows, in row order. *)
Definition apply_changes_selected (table : list Row) : list str :=
  map (fun r => name (row_ext r)) (filter checked table).

(** [load_custom_apps]: [listing] is [os.listdir(apps_dir)] with, for each
    entry, whether it is a directory; the items are (tick, text). *)
Definition load_custom_apps (isspace : char -> bool)
    (listing : list (str * bool)) (apps_line : str) : list (bool * str) :=
  map (fun app =>
         (existsb (str_eqb app) (get_enabled_custom_apps isspace apps_line), app))
      (map fst (filter snd listing)).

(** [apply_custom_apps]: the texts of the ticked items, in item order. *)
Definition apply_custom_apps_enabled (items : list (bool * str)) : list str :=
  map snd (filter fst items).

(** Lower case of ASCII letters, for examples; [str.lower] covers Unicode. *)
Definition ascii_lower (s : str) : str :=
  map (fun c => if ((65 <=? c) && (c <=? 90))%N then (c + 32)%N else c) s.

(** A directory with two extension files, both enabled. *)
Definition demo_files : list DirEntry :=
  [ {| entry_name := py "adblock.js"; st_size := 2048; st_mtime := 100 |};
    {| entry_name := py "Shuffle.js"; st_size := 512; st_mtime := 200 |};
    {| entry_name := py "notes.txt"; st_size := 10; st_mtime := 300 |} ].

Definition demo_extensions : list str := [py "adblock.js"; py "Shuffle.js"].

(** * Basic facts *)

Lemma Qltb_lt (x y : Q) : Qltb x y = true <-> x < y.
Proof.
  unfold Qltb. rewrite negb_true_iff. split; intro H.
  - apply Qnot_le_lt. intro Hle. apply Qle_bool_iff in Hle. congruence.
  - destruct (Qle_bool y x) eqn:E; trivial.
    apply Qle_bool_iff in E. exfalso. lra.
Qed.

Lemma Qltb_ge (x y : Q) : Qltb x y = false <-> y <= x.
Proof.
  unfold Qltb. rewrite negb_false_iff. apply Qle_bool_iff.
Qed.

Lemma in_window_spec (W T a : Q) :
  in_window W T a = true <-> T - W < a /\ a <= T.
Proof.
  unfold in_window. rewrite andb_true_iff, Qltb_lt, Qle_bool_iff. tauto.
Qed.

Lemma in_prune (iv now t : Q) (l : list Q) :
  In t (prune iv now l) <-> In t l /\ now - t < iv.
Proof. unfold prune. rewrite filter_In, Qltb_lt. tauto. Qed.

Lemma prune_app (iv now : Q) (l1 l2 : list Q) :
  prune iv now (l1 ++ l2) = prune iv now l1 ++ prune iv now l2.
Proof. apply filter_app. Qed.

Lemma length_prune_le (iv now : Q) (l : list Q) :
  (length (prune iv now l) <= length l)%nat.
Proof. apply filter_length_le. Qed.

Section Filters.
Context {A : Type}.

Lemma filter_filter_absorb (f g : A -> bool) (l : list A) :
  (forall a, In a l -> f a = true -> g a = true) ->
  filter f (filter g l) = filter f l.
Proof.
  induction l as [|a l IH]; intros H; simpl; trivial.
  assert (IH' : filter f (filter g l) = filter f l)
    by (apply IH; intros; apply H; simpl; auto).
  destruct (g a) eqn:Eg; simpl.
  - now rewrite IH'.
  - destruct (f a) eqn:Ef; trivial.
    rewrite (H a) in Eg; simpl; auto. discriminate.
Qed.

Lemma filter_length_mono (f g : A -> bool) (l : list A) :
  (forall a, In a l -> f a = true -> g a = true) ->
  (length (filter f l) <= length (filter g l))%nat.
Proof.
  induction l as [|a l IH]; intros H; simpl; trivial.
  assert (IH' : (length (filter f l) <= length (filter g l))%nat)
    by (apply IH; intros; apply H; simpl; auto).
  destruct (f a) eqn:Ef.
  - rewrite (H a); simpl; auto. lia.
  - destruct (g a); simpl; lia.
Qed.
End Filters.

(** Pruning at a later instant absorbs pruning at an earlier one. *)
Lemma prune_prune (iv now x : Q) (l : list Q) :
  now <= x -> prune iv x (prune iv now l) = prune iv x l.
Proof.
  intros Hx. unfold prune. apply filter_filter_absorb.
  intros t _. rewrite !Qltb_lt. lra.
Qed.

Lemma prune_length_anti (iv now x : Q) (l : list Q) :
  now <= x -> (length (prune iv x l) <= length (prune iv now l))%nat.
Proof.
  intros Hx. unfold prune. apply filter_length_mono.
  intros t _. rewrite !Qltb_lt. lra.
Qed.

(** The [ValueError] of [time.sleep] is unreachable: the comprehension kept
    only stamps [t] with [now - t < interval]. *)
Lemma wait_unfold (now after : Q) (self : RateLimiter) :
  wait now after self = wait_outcome now after self.
Proof.
  unfold wait, wait_outcome, bind, get, assign_calls, ret; simpl.
  destruct (Z.of_nat _ >=? _)%Z; simpl; trivial.
  destruct (prune (interval self) now (calls self)) as [|t0 kept] eqn:E;
    simpl; trivial.
  unfold time_sleep.
  assert (Hin : In t0 (prune (interval self) now (calls self)))
    by (rewrite E; simpl; auto).
  apply in_prune in Hin. destruct Hin as [_ Hlt].
  replace (Qltb (interval self - (now - t0)) 0) with false; trivial.
  symmetry. apply Qltb_ge. lra.
Qed.

Lemma wait_keeps_config (now after : Q) (self : RateLimiter) :
  calls_per_interval (snd (wait now after self)) = calls_per_interval self /\
  interval (snd (wait now after self)) = interval self.
Proof.
  rewrite wait_unfold. unfold wait_outcome.
  destruct (Z.of_nat _ >=? _)%Z; [destruct (prune _ _ _)|]; simpl; auto.
Qed.

(** With a positive capacity the method never raises. *)
Lemma wait_returns (now after : Q) (self : RateLimiter) :
  (0 < calls_per_interval self)%Z ->
  exists s, wait now after self =
            (Ok s, set_calls self
                     (prune (interval self) now (calls self) ++ [after])).
Proof.
  intros Hcap. rewrite wait_unfold. unfold wait_outcome.
  destruct (Z.of_nat _ >=? _)%Z eqn:E; [|eauto].
  destruct (prune _ _ _) as [|t0 kept]; [|eauto].
  simpl in E. lia.
Qed.

(** ** Sorted lists of stamps *)

Lemma sorted_filter (f : Q -> bool) (l : list Q) :
  StronglySorted Qle l -> StronglySorted Qle (filter f l).
Proof.
  induction 1 as [|a l Hs IH Ha]; simpl; [constructor|].
  destruct (f a); trivial. constructor; trivial.
  rewrite Forall_forall in *. intros t Ht.
  apply filter_In in Ht. apply Ha, Ht.
Qed.

Lemma sorted_snoc (l : list Q) (a : Q) :
  StronglySorted Qle l -> (forall t, In t l -> t <= a) ->
  StronglySorted Qle (l ++ [a]).
Proof.
  induction 1 as [|b l Hs IH Hb]; intros Hle; simpl.
  - repeat constructor.
  - constructor.
    + apply IH. intros; apply Hle; simpl; auto.
    + rewrite Forall_forall in *. intros t Ht.
      apply in_app_or in Ht. destruct Ht as [Ht|[<-|[]]]; auto.
      apply Hle; simpl; auto.
Qed.

Lemma last_cons (a d : Q) (l : list Q) : last (a :: l) d = last l a.
Proof.
  revert a d. induction l as [|b l IH]; intros a d; trivial.
  change (last (a :: b :: l) d) with (last (b :: l) d).
  now rewrite !IH.
Qed.

(** * The invariant of an honest run *)

Section Invariant.

Variable cap : Z.
Variable W : Q.
Hypothesis cap_pos : (0 < cap)%Z.

Lemma Inv_init (t0 : Q) :
  Inv cap W t0 [] {| calls_per_interval := cap; interval := W; calls := [] |}.
Proof.
  constructor; simpl; trivial; try tauto; try (intros; lia);
    constructor.
Qed.

(** After the call's sleep at most [cap - 1] earlier admissions are still
    inside the window, so the new stamp fits. *)
Lemma room_after_wait prev h self now after s self' :
  Inv cap W prev h self -> prev <= now ->
  wait now after self = (Ok s, self') ->
  now + slept s <= after ->
  now <= after /\
  (Z.of_nat (length (prune W after h)) <= cap - 1)%Z.
Proof.
  intros I Hprev Hw Hafter.
  rewrite wait_unfold in Hw. unfold wait_outcome in Hw.
  rewrite (inv_iv I), (inv_cap I) in Hw.
  assert (Hlive : forall x, now <= x ->
                    prune W x h = prune W x (prune W now (calls self))).
  { intros x Hx. rewrite prune_prune by trivial.
    symmetry. apply (inv_live I). lra. }
  destruct (Z.of_nat _ >=? cap)%Z eqn:E.
  - destruct (prune W now (calls self)) as [|t0 kept] eqn:Ek; [discriminate|].
    injection Hw as <- <-. simpl in Hafter.
    assert (Ht0 : In t0 (prune W now (calls self))) by (rewrite Ek; simpl; auto).
    apply in_prune in Ht0. destruct Ht0 as [_ Ht0].
    split; [lra|].
    assert (Hnow : now <= after) by lra.
    rewrite (Hlive after Hnow).
    pose proof (inv_budget I now Hprev) as Hb.
    rewrite <- (inv_live I now Hprev), Ek in Hb.
    unfold prune at 1. simpl.
    replace (Qltb (after - t0) W) with false
      by (symmetry; apply Qltb_ge; lra).
    pose proof (filter_length_le (fun t => Qltb (after - t) W) kept).
    simpl in Hb. lia.
  - injection Hw as <- <-. simpl in Hafter.
    assert (Hnow : now <= after) by lra.
    split; trivial.
    rewrite (Hlive after Hnow).
    pose proof (length_prune_le W after (prune W now (calls self))).
    lia.
Qed.

Lemma wait_preserves prev h self now after s self' :
  Inv cap W prev h self -> prev <= now ->
  wait now after self = (Ok s, self') ->
  now + slept s <= after ->
  Inv cap W after (h ++ [after]) self'.
Proof.
  intros I Hprev Hw Hafter.
  destruct (room_after_wait _ _ _ _ _ _ _ I Hprev Hw Hafter) as [Hnow Hroom].
  destruct (wait_returns now after self) as [s' Hs'].
  { rewrite (inv_cap I). exact cap_pos. }
  rewrite Hs' in Hw. injection Hw as -> <-.
  rewrite (inv_iv I).
  assert (Hkept : forall t, In t (prune W now (calls self)) -> t <= after).
  { intros t Ht. apply in_prune in Ht. destruct Ht as [Ht _].
    pose proof (inv_calls_le I t Ht). lra. }
  constructor; simpl.
  - apply (inv_cap I).
  - apply (inv_iv I).
  - intros t Ht. apply in_app_or in Ht. destruct Ht as [Ht|[<-|[]]]; [|lra].
    pose proof (inv_hist_le I t Ht). lra.
  - intros t Ht. apply in_app_or in Ht. destruct Ht as [Ht|[<-|[]]]; [|lra].
    auto.
  - apply sorted_snoc; trivial.
    apply sorted_filter, (inv_sorted I).
  - apply sorted_snoc; [apply (inv_hist_sorted I)|].
    intros t Ht. pose proof (inv_hist_le I t Ht). lra.
  - rewrite length_app. simpl.
    pose proof (inv_budget I now Hprev) as Hb.
    rewrite <- (inv_live I now Hprev) in Hb. lia.
  - intros x Hx. rewrite !prune_app. f_equal.
    rewrite prune_prune by lra. apply (inv_live I). lra.
  - intros x Hx. rewrite prune_app, length_app.
    pose proof (prune_length_anti W after x h Hx).
    pose proof (length_prune_le W x [after]). simpl in *. lia.
  - intros T. unfold admitted_in. rewrite filter_app, length_app.
    simpl. destruct (in_window W T after) eqn:Ein; simpl.
    + apply in_window_spec in Ein.
      assert ((length (filter (in_window W T) h)
               <= length (prune W after h))%nat).
      { apply filter_length_mono. intros a _ Ha.
        apply in_window_spec in Ha. apply Qltb_lt. lra. }
      lia.
    + pose proof (inv_window I T) as Hwin.
      unfold admitted_in in Hwin. lia.
Qed.

(** Every honest trace runs to completion and re-establishes the invariant. *)
Lemma run_preserves (tr : list readings) :
  forall prev h self,
    Inv cap W prev h self -> clock_ok prev tr self = true ->
    exists ss self',
      wait_all tr self = (Ok ss, self') /\
      length ss = length tr /\
      Inv cap W (last_reading prev tr) (h ++ admissions tr) self'.
Proof.
  induction tr as [|[now after] tr IH]; intros prev h self I Hok.
  - exists [], self. simpl. rewrite app_nil_r. auto.
  - simpl in Hok. apply andb_true_iff in Hok. destruct Hok as [Hprev Hok].
    apply Qle_bool_iff in Hprev.
    destruct (wait_returns now after self) as [s Hs].
    { rewrite (inv_cap I). exact cap_pos. }
    rewrite Hs in Hok. apply andb_true_iff in Hok.
    destruct Hok as [Hafter Hok]. apply Qle_bool_iff in Hafter.
    pose proof (wait_preserves _ _ _ _ _ _ _ I Hprev Hs Hafter) as I'.
    destruct (IH _ _ _ I' Hok) as (ss & self' & Hrun & Hlen & I'').
    exists (s :: ss), self'. simpl. unfold bind at 1. rewrite Hs.
    unfold bind at 1. rewrite Hrun. unfold ret. simpl.
    split; [reflexivity|]. split; [simpl; congruence|].
    unfold last_reading, admissions in *. simpl map.
    rewrite last_cons, <- app_assoc in *. exact I''.
Qed.

End Invariant.

(** * Calls that do not sleep *)

Lemma wait_below_capacity (now after : Q) (self : RateLimiter) :
  (Z.of_nat (length (prune (interval self) now (calls self)))
   < calls_per_interval self)%Z ->
  wait now after self =
  (Ok None, set_calls self (prune (interval self) now (calls self) ++ [after])).
Proof.
  intros H. rewrite wait_unfold. unfold wait_outcome.
  destruct (Z.of_nat _ >=? _)%Z eqn:E; trivial. lia.
Qed.

Lemma sleep_request_fst (now after : Q) (self : RateLimiter) :
  fst (wait now after self) = sleep_request self now.
Proof.
  unfold sleep_request. rewrite !wait_unfold. unfold wait_outcome.
  destruct (Z.of_nat _ >=? _)%Z; [destruct (prune _ _ _)|]; reflexivity.
Qed.

(** While fewer stamps are stored than the capacity allows, no call sleeps,
    whatever the clock shows. *)
Lemma burst_no_sleep (tr : list readings) :
  forall self,
    (Z.of_nat (length (calls self)) + Z.of_nat (length tr)
     <= calls_per_interval self)%Z ->
    exists self',
      wait_all tr self = (Ok (repeat None (length tr)), self') /\
      calls_per_interval self' = calls_per_interval self /\
      interval self' = interval self.
Proof.
  induction tr as [|[now after] tr IH]; intros self Hlen.
  - exists self. auto.
  - simpl length in Hlen.
    pose proof (length_prune_le (interval self) now (calls self)) as Hp.
    destruct (IH (set_calls self
                    (prune (interval self) now (calls self) ++ [after])))
      as (self' & Hrun & Hc & Hi).
    { simpl. rewrite length_app. simpl. lia. }
    exists self'. simpl. unfold bind at 1.
    rewrite wait_below_capacity by lia.
    unfold bind at 1. rewrite Hrun. auto.
Qed.

Lemma filter_none {A} (f : A -> bool) (l : list A) :
  (forall a, In a l -> f a = false) -> filter f l = [].
Proof.
  induction l as [|a l IH]; intros H; simpl; trivial.
  rewrite (H a) by (simpl; auto). apply IH. intros; apply H; simpl; auto.
Qed.

Lemma filter_all {A} (f : A -> bool) (l : list A) :
  (forall a, In a l -> f a = true) -> filter f l = l.
Proof.
  induction l as [|a l IH]; intros H; simpl; trivial.
  rewrite (H a) by (simpl; auto). f_equal. apply IH.
  intros; apply H; simpl; auto.
Qed.

(** * Spaced arrivals *)

Lemma chain_gap (g : Q) (l : list Q) :
  0 < g -> forall x t, chain g x l -> In t l -> g < x - t.
Proof.
  intros Hg. induction l as [|b l IH]; intros x t Hc Hin; [destruct Hin|].
  destruct Hc as [Hb Hc]. destruct Hin as [<-|Hin]; trivial.
  pose proof (IH _ _ Hc Hin). lra.
Qed.

Lemma chain_head (g x y : Q) (l : list Q) :
  x == y -> chain g x l -> chain g y l.
Proof.
  intros E. destruct l as [|t l]; simpl; trivial.
  intros [H Hc]. split; trivial. lra.
Qed.

Lemma gap_shift (g t x a q : Q) :
  g < x - t -> x - a < (q + 1) * g -> t - a < q * g.
Proof. intros Ht Ha. lra. Qed.

(** Of stamps more than [g] apart, at most [k] are less than [(k+1) g] old. *)
Lemma chain_count (g : Q) (l : list Q) :
  0 < g ->
  forall x k, chain g x l ->
    (length (filter (fun t => Qltb (x - t) (inject_Z (Z.of_nat (S k)) * g)) l)
     <= k)%nat.
Proof.
  intros Hg. induction l as [|t l IH]; intros x k Hc; [simpl; lia|].
  destruct Hc as [Ht Hc]. cbn [filter].
  destruct k as [|k].
  - replace (Qltb (x - t) (inject_Z (Z.of_nat 1) * g)) with false
      by (symmetry; apply Qltb_ge; change (inject_Z (Z.of_nat 1)) with 1; lra).
    rewrite filter_none; [simpl; lia|].
    intros a Ha. apply Qltb_ge. change (inject_Z (Z.of_nat 1)) with 1.
    pose proof (chain_gap g l Hg _ _ Hc Ha). lra.
  - assert (Hk : inject_Z (Z.of_nat (S (S k)))
                 == inject_Z (Z.of_nat (S k)) + 1).
    { rewrite (Nat2Z.inj_succ (S k)). unfold Z.succ.
      rewrite inject_Z_plus. reflexivity. }
    assert (Htl : (length (filter (fun t' => Qltb (x - t')
                             (inject_Z (Z.of_nat (S (S k))) * g)) l)
                   <= length (filter (fun t' => Qltb (t - t')
                             (inject_Z (Z.of_nat (S k)) * g)) l))%nat).
    { apply filter_length_mono. intros a _. rewrite !Qltb_lt.
      rewrite Hk. generalize (inject_Z (Z.of_nat (S k))).
      intros q Ha. exact (gap_shift g t x a q Ht Ha). }
    pose proof (IH t k Hc).
    destruct (Qltb (x - t) _); cbn [length]; lia.
Qed.

Lemma spaced_map_seq (g : Q) (arr : nat -> Q) :
  (forall i, g < arr (S i) - arr i) ->
  forall n s, spaced g (map arr (seq s n)).
Proof.
  intros Harr. induction n as [|n IH]; intros s; simpl; trivial.
  specialize (IH (S s)). destruct n; simpl in *; auto.
Qed.

(** * The idealised clock with spaced arrivals *)

Section Spaced.

Variable cap : Z.
Variables W g : Q.
Hypothesis cap_pos : (0 < cap)%Z.
Hypothesis g_pos : 0 < g.
Hypothesis g_share : W == inject_Z cap * g.

(** Stamps more than [g] apart leave fewer than [cap] of them in a window. *)
Lemma spaced_room (now : Q) (h : list Q) :
  chain g now (rev h) -> (Z.of_nat (length (prune W now h)) < cap)%Z.
Proof.
  intros Hc.
  pose proof (chain_count g (rev h) g_pos now (Z.to_nat (cap - 1)) Hc) as Hk.
  assert (Ecap : Z.of_nat (S (Z.to_nat (cap - 1))) = cap) by lia.
  rewrite Ecap in Hk.
  rewrite filter_rev, length_rev in Hk.
  assert ((length (prune W now h)
           <= length (filter (fun t => Qltb (now - t) (inject_Z cap * g)) h))%nat).
  { unfold prune. apply filter_length_mono. intros t _.
    rewrite !Qltb_lt. rewrite g_share. trivial. }
  lia.
Qed.

Lemma ideal_spaced_no_sleep (arrivals : list Q) :
  forall clock h self,
    Inv cap W clock h self ->
    match arrivals with
    | [] => True
    | a :: _ => clock <= a /\ chain g a (rev h)
    end ->
    spaced g arrivals ->
    exists self',
      ideal_run clock arrivals self
      = (Ok (repeat None (length arrivals)), self').
Proof.
  induction arrivals as [|a arrivals IH]; intros clock h self I Hfirst Hsp.
  - exists self. reflexivity.
  - destruct Hfirst as [Hclock Hchain].
    set (now := Qmax clock a).
    assert (Hnow : now == a) by (apply Q.max_r; trivial).
    assert (Hprev : clock <= now) by apply Q.le_max_l.
    assert (Hroom : (Z.of_nat (length (prune (interval self) now (calls self)))
                     < calls_per_interval self)%Z).
    { rewrite (inv_iv I), (inv_cap I), (inv_live I now Hprev).
      apply spaced_room. apply (chain_head g a now); trivial.
      symmetry; trivial. }
    assert (Hreq : sleep_request self now = Ok None).
    { unfold sleep_request. now rewrite wait_below_capacity. }
    pose proof (wait_below_capacity now (now + 0) self Hroom) as Hw.
    assert (I' : Inv cap W (now + 0) (h ++ [now + 0])
                   (snd (wait now (now + 0) self))).
    { apply (wait_preserves cap W cap_pos clock h self now (now + 0) None);
        trivial.
      - rewrite Hw. reflexivity.
      - simpl. lra. }
    destruct (IH (now + 0) (h ++ [now + 0]) (snd (wait now (now + 0) self)) I')
      as [self' Hrun].
    { destruct arrivals as [|b arrivals]; trivial.
      destruct Hsp as [Hgap _]. rewrite rev_unit. simpl. repeat split.
      - lra.
      - lra.
      - apply (chain_head g a (now + 0)); trivial. rewrite Hnow. ring. }
    { destruct arrivals; [exact Logic.I|]. apply Hsp. }
    exists self'. unfold ideal_run in *. cbn [ideal_trace].
    fold now. rewrite Hreq. cbn [slept wait_all].
    unfold bind at 1. rewrite Hw at 1. unfold bind at 1.
    rewrite Hw in Hrun. simpl snd in Hrun. rewrite Hw. simpl snd.
    rewrite Hrun. reflexivity.
Qed.

End Spaced.

(** * Further facts about single calls and runs *)

Lemma wait_sleep_positive (now after : Q) (self self' : RateLimiter) (s : option Q) :
  wait now after self = (Ok s, self') -> positive_sleep s.
Proof.
  rewrite wait_unfold. unfold wait_outcome.
  destruct (Z.of_nat _ >=? _)%Z.
  - destruct (prune _ _ _) as [|t0 kept] eqn:E; [discriminate|].
    intros H. injection H as <- _. simpl.
    assert (Hin : In t0 (prune (interval self) now (calls self)))
      by (rewrite E; simpl; auto).
    apply in_prune in Hin. lra.
  - intros H. injection H as <- _. exact I.
Qed.




Lemma wait_all_returns (tr : list readings) :
  forall self,
    (0 < calls_per_interval self)%Z ->
    exists ss self', wait_all tr self = (Ok ss, self') /\ length ss = length tr.
Proof.
  induction tr as [|[now after] tr IH]; intros self Hcap.
  - exists [], self. auto.
  - destruct (wait_returns now after self Hcap) as [s Hs].
    destruct (IH (set_calls self
                    (prune (interval self) now (calls self) ++ [after])) Hcap)
      as (ss & self' & Hrun & Hlen).
    exists (s :: ss), self'. simpl. unfold bind at 1. rewrite Hs.
    unfold bind at 1. rewrite Hrun. simpl. auto.
Qed.

(** * The claims *)

(** C1. From a limiter constructed with positive capacity and window, under
    an honest clock (readings never decrease, and the reading after a sleep
    is at least the sleep later), every sequence of [wait()] calls completes,
    no trailing window [(T - W, T]] contains more than [cap] admissions, and
    at the return of the last call and at any later instant [x] the stored
    stamps newer than [x - W] number at most [cap]. *)
Theorem C1_window_never_exceeds_capacity
    (cap : Z) (W t0 : Q) (self : RateLimiter) (tr : list readings) :
  (0 < cap)%Z -> 0 < W ->
  init cap W = Ok self ->
  clock_ok t0 tr self = true ->
  exists ss self',
    wait_all tr self = (Ok ss, self') /\
    (forall T, (Z.of_nat (admitted_in W T (admissions tr)) <= cap)%Z) /\
    (forall x, last_reading t0 tr <= x ->
               (Z.of_nat (length (prune W x (calls self'))) <= cap)%Z).
Proof.
  intros Hcap _ Hinit Hok. injection Hinit as <-.
  destruct (run_preserves cap W Hcap tr t0 [] _ (Inv_init cap W Hcap t0) Hok)
    as (ss & self' & Hrun & _ & I).
  exists ss, self'. simpl in I. split; [exact Hrun|]. split.
  - apply (inv_window I).
  - intros x Hx. rewrite (inv_live I x Hx). apply (inv_budget I x Hx).
Qed.

Lemma C1_witness :
  clock_ok 0 demo_trace demo_limiter = true /\
  exists ss self',
    wait_all demo_trace demo_limiter = (Ok ss, self') /\
    (forall T, (Z.of_nat (admitted_in 10 T (admissions demo_trace)) <= 3)%Z) /\
    (forall x, last_reading 0 demo_trace <= x ->
               (Z.of_nat (length (prune 10 x (calls self'))) <= 3)%Z).
Proof.
  split; [vm_compute; reflexivity|].
  apply (C1_window_never_exceeds_capacity 3 10 0 demo_limiter demo_trace);
    [reflexivity | reflexivity | reflexivity | vm_compute; reflexivity].
Defined.





(** C9. With a non-positive [calls_per_interval] construction succeeds, and
    the first [wait()] finds the count test true on the empty list and
    raises [IndexError] at [self.calls[0]]. *)
Theorem C9_nonpositive_capacity_indexes_empty_list
    (cpi : Z) (W now after : Q) :
  (cpi <= 0)%Z ->
  exists self,
    init cpi W = Ok self /\
    calls self = [] /\
    (Z.of_nat (length (prune (interval self) now (calls self)))
     >=? calls_per_interval self)%Z = true /\
    index0 (prune (interval self) now (calls self)) self
    = (Raise IndexError, self) /\
    wait now after self = (Raise IndexError, self).
Proof.
  intros Hcpi. eexists. split; [reflexivity|]. simpl.
  assert (E : (0 >=? cpi)%Z = true) by lia.
  repeat split; trivial.
  unfold wait, bind, get, assign_calls, ret, set_calls; simpl.
  rewrite E. reflexivity.
Qed.

Lemma C9_witness :
  (0 <= 0)%Z /\
  exists self,
    init 0 3600 = Ok self /\
    calls self = [] /\
    (Z.of_nat (length (prune (interval self) 5 (calls self)))
     >=? calls_per_interval self)%Z = true /\
    index0 (prune (interval self) 5 (calls self)) self
    = (Raise IndexError, self) /\
    wait 5 5 self = (Raise IndexError, self).
Proof.
  split; [discriminate|].
  apply (C9_nonpositive_capacity_indexes_empty_list 0 3600 5 5).
  discriminate.
Defined.

(** C5. Starting from the empty history, a burst of exactly [cap] calls
    completes with no call to [time.sleep] at all, whatever the clock
    readings of the burst are (in particular when they all lie within one
    window). *)
Theorem C5_burst_of_capacity_never_sleeps
    (cap : Z) (W : Q) (self : RateLimiter) (burst : list readings) :
  (0 < cap)%Z -> 0 < W ->
  init cap W = Ok self ->
  Z.of_nat (length burst) = cap ->
  exists self',
    wait_all burst self = (Ok (repeat None (length burst)), self') /\
    Forall (fun s => slept s == 0) (repeat None (length burst)).
Proof.
  intros _ _ Hinit Hlen. injection Hinit as <-.
  destruct (burst_no_sleep burst
              {| calls_per_interval := cap; interval := W; calls := [] |})
    as (self' & Hrun & _).
  { simpl. lia. }
  exists self'. split; trivial.
  apply Forall_forall. intros s Hs. apply repeat_spec in Hs. subst.
  reflexivity.
Qed.

Lemma C5_witness :
  Z.of_nat (length [(0, 0); (0, 0); (0, 0)]) = 3%Z /\
  exists self',
    wait_all [(0, 0); (0, 0); (0, 0)] demo_limiter
    = (Ok [None; None; None], self') /\
    Forall (fun s => slept s == 0) [None; None; None].
Proof.
  split; [reflexivity|].
  apply (C5_burst_of_capacity_never_sleeps 3 10 demo_limiter
           [(0, 0); (0, 0); (0, 0)]); reflexivity.
Defined.

(** C4. When the list kept by the pruning holds exactly [cap] stamps, the
    call asks [time.sleep] for [W - (now - oldest)], [oldest] being the first
    kept stamp, which is the least one when the stored list is sorted.  In
    particular, after a burst of [cap] calls from the empty history under an
    honest clock, a call entered at [now], less than [W] after the stamp of
    the first call of the burst, sleeps [W - (now - first stamp)]. *)
Theorem C4_sleep_until_oldest_expires (cap : Z) (W : Q) :
  (0 < cap)%Z -> 0 < W ->
  (forall self now after,
      calls_per_interval self = cap -> interval self = W ->
      Z.of_nat (length (prune W now (calls self))) = cap ->
      exists oldest rest,
        prune W now (calls self) = oldest :: rest /\
        (StronglySorted Qle (calls self) -> Forall (Qle oldest) rest) /\
        wait now after self
        = (Ok (Some (W - (now - oldest))),
           set_calls self (oldest :: rest ++ [after]))) /\
  (forall t0 self first burst now after,
      init cap W = Ok self ->
      Z.of_nat (length (first :: burst)) = cap ->
      clock_ok t0 (first :: burst) self = true ->
      last_reading t0 (first :: burst) <= now ->
      now - snd first < W ->
      exists self',
        wait_all (first :: burst) self
        = (Ok (repeat None (length (first :: burst))), self') /\
        fst (wait now after self') = Ok (Some (W - (now - snd first)))).
Proof.
  intros Hcap _. split.
  - intros self now after Hc Hi Hlen.
    destruct (prune W now (calls self)) as [|oldest rest] eqn:E;
      [simpl in Hlen; lia|].
    exists oldest, rest. split; trivial. split.
    + intros Hs. apply (sorted_filter (fun t => Qltb (now - t) W)) in Hs.
      fold (prune W now (calls self)) in Hs. rewrite E in Hs.
      apply StronglySorted_inv in Hs. apply Hs.
    + rewrite wait_unfold. unfold wait_outcome. rewrite Hi, Hc, E.
      replace (Z.of_nat (length (oldest :: rest)) >=? cap)%Z with true
        by (symmetry; apply Z.geb_le; lia).
      reflexivity.
  - intros t0 self first burst now after Hinit Hlen Hok Hlast Hnear.
    injection Hinit as <-.
    destruct (run_preserves cap W Hcap (first :: burst) t0 [] _
                (Inv_init cap W Hcap t0) Hok)
      as (ss & self' & Hrun & _ & I).
    destruct (burst_no_sleep (first :: burst)
                {| calls_per_interval := cap; interval := W; calls := [] |})
      as (self'' & Hrun' & _).
    { simpl calls. simpl calls_per_interval. simpl (length []). lia. }
    rewrite Hrun in Hrun'. injection Hrun' as -> <-.
    exists self'. split; trivial.
    change ([] ++ admissions (first :: burst))
      with (admissions (first :: burst)) in I.
    assert (Hall : prune W now (admissions (first :: burst))
                   = admissions (first :: burst)).
    { apply filter_all. intros a Ha. apply Qltb_lt.
      pose proof (inv_hist_sorted I) as Hs.
      unfold admissions in Hs, Ha. simpl map in Hs, Ha.
      apply StronglySorted_inv in Hs. destruct Hs as [_ Hs].
      rewrite Forall_forall in Hs.
      destruct Ha as [<-|Ha]; [trivial|].
      pose proof (Hs a Ha). lra. }
    rewrite wait_unfold. unfold wait_outcome.
    rewrite (inv_iv I), (inv_cap I), (inv_live I now Hlast), Hall.
    unfold admissions. rewrite length_map.
    unfold readings in *.
    destruct (Z.of_nat _ >=? cap)%Z eqn:E; [reflexivity|lia].
Qed.

Lemma C4_witness :
  exists self',
    wait_all [(0, 0); (0, 0); (0, 0)] demo_limiter
    = (Ok [None; None; None], self') /\
    fst (wait (1 # 10) 10 self') = Ok (Some (10 - ((1 # 10) - 0))).
Proof.
  apply (proj2 (C4_sleep_until_oldest_expires 3 10 eq_refl eq_refl)
           0 demo_limiter (0, 0) [(0, 0); (0, 0)] (1 # 10) 10);
    [reflexivity | reflexivity | vm_compute; reflexivity
    | vm_compute; discriminate | reflexivity].
Defined.

(** C6. Capacity 3, window 10 s, idealised clock.  The calls arriving at
    0, 0, 0 do not sleep; the call arriving at 0.1 sleeps 9.9 s and returns
    at 10, when the first stamp expires; the call arriving at 11 does not
    sleep.  Rationals are compared after reduction to lowest terms. *)
Theorem C6_three_per_ten_seconds_scenario :
  init 3 10 = Ok demo_limiter /\
  map Qred_readings (ideal_trace 0 demo_arrivals demo_limiter) = demo_trace /\
  match ideal_run 0 demo_arrivals demo_limiter with
  | (Ok ss, self') =>
      map (option_map Qred) ss = [None; None; None; Some (99 # 10); None] /\
      map Qred (calls self') = [10; 11]
  | (Raise _, _) => False
  end.
Proof.
  split; [reflexivity|]. split; [vm_compute; reflexivity|].
  vm_compute. split; reflexivity.
Qed.

(** Under the idealised clock, when consecutive arrivals are more than
    [W / cap] apart, none of the first [n] calls sleeps, for every [n]. *)
Theorem ideal_clock_spaced_arrivals_never_sleep
    (cap : Z) (W t0 : Q) (self : RateLimiter) (arr : nat -> Q) (n : nat) :
  (0 < cap)%Z -> 0 < W ->
  init cap W = Ok self ->
  t0 <= arr 0%nat ->
  (forall i, W / inject_Z cap < arr (S i) - arr i) ->
  exists self',
    ideal_run t0 (map arr (seq 0 n)) self = (Ok (repeat None n), self').
Proof.
  intros Hcap HW Hinit Ht0 Harr. injection Hinit as <-.
  assert (Hc : 0 < inject_Z cap)
    by (unfold Qlt; simpl; lia).
  assert (Hshare : W == inject_Z cap * (W / inject_Z cap))
    by (field; lra).
  assert (Hg : 0 < W / inject_Z cap)
    by (apply Qlt_shift_div_l; trivial; lra).
  destruct (ideal_spaced_no_sleep cap W (W / inject_Z cap) Hcap Hg Hshare
              (map arr (seq 0 n)) t0 []
              {| calls_per_interval := cap; interval := W; calls := [] |}
              (Inv_init cap W Hcap t0))
    as [self' Hrun].
  - destruct n; simpl; auto.
  - apply spaced_map_seq, Harr.
  - exists self'. rewrite length_map, length_seq in Hrun. exact Hrun.
Qed.

Lemma ideal_clock_spaced_arrivals_never_sleep_witness :
  exists self',
    ideal_run 0 (map (fun i => inject_Z (Z.of_nat i) * 6) (seq 0 4))
      {| calls_per_interval := 2; interval := 10; calls := [] |}
    = (Ok (repeat None 4), self').
Proof.
  apply (ideal_clock_spaced_arrivals_never_sleep 2 10 0 _
           (fun i => inject_Z (Z.of_nat i) * 6) 4);
    [reflexivity | reflexivity | reflexivity | vm_compute; discriminate |].
  intros i. rewrite Nat2Z.inj_succ. unfold Z.succ. rewrite inject_Z_plus.
  setoid_replace (10 / inject_Z 2) with 5 by reflexivity.
  change (inject_Z 1) with 1. generalize (inject_Z (Z.of_nat i)).
  intros q. lra.
Defined.

(** C8. With a positive capacity and window, in a state none of whose stamps
    is later than [prev] (the instant the last call returned), a call entered
    more than [W] after [prev] prunes every stamp and returns without
    sleeping. *)
Theorem C8_idle_longer_than_window_is_immediate
    (self : RateLimiter) (prev now after : Q) :
  (0 < calls_per_interval self)%Z -> 0 < interval self ->
  (forall t, In t (calls self) -> t <= prev) ->
  interval self < now - prev ->
  prune (interval self) now (calls self) = [] /\
  wait now after self = (Ok None, set_calls self [after]).
Proof.
  intros Hcap _ Hprev Hidle.
  assert (E : prune (interval self) now (calls self) = []).
  { apply filter_none. intros t Ht. apply Qltb_ge.
    pose proof (Hprev t Ht). lra. }
  split; trivial.
  rewrite wait_below_capacity; rewrite E; simpl; trivial.
Qed.

Lemma C8_witness :
  let self := {| calls_per_interval := 3; interval := 10;
                 calls := [0; 0; 0; 10] |} in
  prune (interval self) 21 (calls self) = [] /\
  wait 21 21 self = (Ok None, set_calls self [21]).
Proof.
  intros self.
  apply (C8_idle_longer_than_window_is_immediate self 10 21 21);
    [reflexivity | reflexivity | | reflexivity].
  intros t Ht. simpl in Ht.
  destruct Ht as [<-|[<-|[<-|[<-|[]]]]]; vm_compute; discriminate.
Defined.

(** C10. From a limiter constructed with positive capacity and window, under
    an honest clock, after every call has returned the stored list is sorted
    in non-decreasing order and holds at most [cap + 1] stamps. *)
Theorem C10_stored_list_sorted_and_short
    (cap : Z) (W t0 : Q) (self : RateLimiter) (tr : list readings) :
  (0 < cap)%Z -> 0 < W ->
  init cap W = Ok self ->
  clock_ok t0 tr self = true ->
  exists ss self',
    wait_all tr self = (Ok ss, self') /\
    StronglySorted Qle (calls self') /\
    (Z.of_nat (length (calls self')) <= cap + 1)%Z.
Proof.
  intros Hcap _ Hinit Hok. injection Hinit as <-.
  destruct (run_preserves cap W Hcap tr t0 [] _ (Inv_init cap W Hcap t0) Hok)
    as (ss & self' & Hrun & _ & I).
  exists ss, self'. split; [exact Hrun|]. split.
  - apply (inv_sorted I).
  - apply (inv_len I).
Qed.

Lemma C10_witness :
  exists ss self',
    wait_all (firstn 4 demo_trace) demo_limiter = (Ok ss, self') /\
    StronglySorted Qle (calls self') /\
    (Z.of_nat (length (calls self')) <= 3 + 1)%Z.
Proof.
  apply (C10_stored_list_sorted_and_short 3 10 0 demo_limiter
           (firstn 4 demo_trace));
    [reflexivity | reflexivity | reflexivity | vm_compute; reflexivity].
Defined.

(** The bound of C10 is reached: after the fourth call of the scenario the
    list holds four stamps, one of them expired. *)
Example stored_list_reaches_capacity_plus_one :
  map Qred (calls (snd (wait_all (firstn 4 demo_trace) demo_limiter)))
  = [0; 0; 0; 10].
Proof. vm_compute. reflexivity. Qed.

(** * Further properties of [RateLimiter] *)

Lemma Qltb_eq_compat (x x' y y' : Q) :
  x == x' -> y == y' -> Qltb x y = Qltb x' y'.
Proof. intros Hx Hy. unfold Qltb. now rewrite Hx, Hy. Qed.

Lemma prune_clock_eq (iv x y : Q) (l : list Q) :
  x == y -> prune iv x l = prune iv y l.
Proof.
  intros E. unfold prune. apply filter_ext. intros t.
  apply Qltb_eq_compat; [rewrite E|]; reflexivity.
Qed.

Lemma honest_step_sleep_within cap W prev h self now after s self' :
  Inv cap W prev h self -> prev <= now ->
  wait now after self = (Ok s, self') ->
  sleep_within W s.
Proof.
  intros I Hprev Hw.
  pose proof (wait_sleep_positive now after self self' s Hw) as Hpos.
  rewrite wait_unfold in Hw. unfold wait_outcome in Hw.
  rewrite (inv_iv I) in Hw.
  destruct (Z.of_nat _ >=? _)%Z.
  - destruct (prune W now (calls self)) as [|t0 kept] eqn:E; [discriminate|].
    injection Hw as <- _. simpl in *. split; trivial.
    assert (Hin : In t0 (prune W now (calls self))) by (rewrite E; simpl; auto).
    apply in_prune in Hin. destruct Hin as [Hin _].
    pose proof (inv_calls_le I t0 Hin). lra.
  - injection Hw as <- _. exact Logic.I.
Qed.

Lemma honest_run_sleeps_within cap W (Hcap : (0 < cap)%Z) (tr : list readings) :
  forall prev h self ss self',
    Inv cap W prev h self -> clock_ok prev tr self = true ->
    wait_all tr self = (Ok ss, self') ->
    Forall (sleep_within W) ss.
Proof.
  induction tr as [|[now after] tr IH]; intros prev h self ss self' I Hok Hrun.
  - injection Hrun as <- _. constructor.
  - simpl in Hok, Hrun. apply andb_true_iff in Hok. destruct Hok as [Hprev Hok].
    apply Qle_bool_iff in Hprev.
    unfold bind at 1 in Hrun.
    destruct (wait now after self) as [[s|e] self1] eqn:Hw; [|discriminate].
    apply andb_true_iff in Hok. destruct Hok as [Hafter Hok].
    apply Qle_bool_iff in Hafter.
    unfold bind at 1 in Hrun.
    destruct (wait_all tr self1) as [[ss1|e] self2] eqn:Hrest; [|discriminate].
    injection Hrun as <- _. constructor.
    + apply (honest_step_sleep_within cap W prev h self now after s self1 I Hprev Hw).
    + apply (IH after (h ++ [after]) self1 ss1 self2); trivial.
      apply (wait_preserves cap W Hcap prev h self now after s self1); trivial.
Qed.

(** Under an honest clock no call is made to sleep longer than one window:
    every requested sleep lies in [(0, W]]. *)
Theorem honest_clock_sleep_at_most_window
    (cap : Z) (W t0 : Q) (self : RateLimiter) (tr : list readings) :
  (0 < cap)%Z ->
  init cap W = Ok self ->
  clock_ok t0 tr self = true ->
  exists ss self',
    wait_all tr self = (Ok ss, self') /\ Forall (sleep_within W) ss.
Proof.
  intros Hcap Hinit Hok. injection Hinit as <-.
  destruct (run_preserves cap W Hcap tr t0 [] _ (Inv_init cap W Hcap t0) Hok)
    as (ss & self' & Hrun & _ & _).
  exists ss, self'. split; trivial.
  apply (honest_run_sleeps_within cap W Hcap tr t0 [] _ ss self'
           (Inv_init cap W Hcap t0) Hok Hrun).
Qed.

Lemma honest_clock_sleep_at_most_window_witness :
  exists ss self',
    wait_all demo_trace demo_limiter = (Ok ss, self') /\
    Forall (sleep_within 10) ss.
Proof.
  apply (honest_clock_sleep_at_most_window 3 10 0 demo_limiter demo_trace);
    [reflexivity | reflexivity | vm_compute; reflexivity].
Defined.

(** * [wait] against the limit of [time.sleep] *)









(** Beyond the limit: with a window of [10^10] seconds the second call asks
    for a sleep of more than [2^63] nanoseconds. *)
Example wait_raises_OverflowError_on_huge_window :
  fst (wait_all_checked [(0, 0); (1, 1)]
         {| calls_per_interval := 1; interval := 10000000000; calls := [] |})
  = Raise OverflowError.
Proof. vm_compute. reflexivity. Qed.

Lemma nonpositive_window_run (tr : list readings) :
  forall prev self,
    (0 < calls_per_interval self)%Z -> interval self <= 0 ->
    (forall t, In t (calls self) -> t <= prev) ->
    clock_ok prev tr self = true ->
    exists self',
      wait_all tr self = (Ok (repeat None (length tr)), self') /\
      (tr <> [] -> calls self' = [last_reading prev tr]).
Proof.
  induction tr as [|[now after] tr IH]; intros prev self Hcap Hiv Hle Hok.
  - exists self. split; [reflexivity|]. congruence.
  - simpl in Hok. apply andb_true_iff in Hok. destruct Hok as [Hprev Hok].
    apply Qle_bool_iff in Hprev.
    assert (E : prune (interval self) now (calls self) = []).
    { apply filter_none. intros t Ht. apply Qltb_ge.
      pose proof (Hle t Ht). lra. }
    assert (Hw : wait now after self = (Ok None, set_calls self [after])).
    { rewrite wait_below_capacity; rewrite E; simpl; trivial. }
    rewrite Hw in Hok. apply andb_true_iff in Hok. destruct Hok as [_ Hok].
    destruct (IH after (set_calls self [after])) as (self' & Hrun & Hlast);
      trivial.
    { simpl. intros t [<-|[]]. lra. }
    exists self'. split.
    + simpl. unfold bind at 1. rewrite Hw. unfold bind at 1. rewrite Hrun.
      reflexivity.
    + intros _. unfold last_reading, admissions. simpl map. rewrite last_cons.
      destruct tr as [|r tr].
      * simpl in Hrun. injection Hrun as <-. reflexivity.
      * apply Hlast. discriminate.
Qed.

(** A limiter constructed with a window that is not positive never limits:
    under non-decreasing readings no call sleeps, and after each call the
    list holds the stamp of that call alone. *)
Theorem nonpositive_window_never_sleeps
    (cap : Z) (W t0 : Q) (self : RateLimiter) (tr : list readings) :
  (0 < cap)%Z -> W <= 0 ->
  init cap W = Ok self ->
  clock_ok t0 tr self = true ->
  exists self',
    wait_all tr self = (Ok (repeat None (length tr)), self') /\
    (tr <> [] -> calls self' = [last_reading t0 tr]).
Proof.
  intros Hcap HW Hinit Hok. injection Hinit as <-.
  apply nonpositive_window_run; trivial. simpl. tauto.
Qed.

Lemma nonpositive_window_never_sleeps_witness :
  exists self',
    wait_all [(0, 0); (0, 0); (0, 0)]
      {| calls_per_interval := 1; interval := 0; calls := [] |}
    = (Ok [None; None; None], self') /\
    ([(0, 0); (0, 0); (0, 0)] <> [] ->
     calls self' = [last_reading 0 [(0, 0); (0, 0); (0, 0)]]).
Proof.
  apply (nonpositive_window_never_sleeps 1 0 0 _ [(0, 0); (0, 0); (0, 0)]);
    [reflexivity | vm_compute; discriminate | reflexivity
    | vm_compute; reflexivity].
Defined.

(** ** Saturation: all calls already waiting *)

Section Saturated.

Variable cap : Z.
Variables W t0 : Q.
Hypothesis cap_pos : (0 < cap)%Z.
Hypothesis W_pos : 0 < W.

Lemma sat_step_free q c clock self now :
  Sat cap W t0 q c clock self -> (c < cap)%Z -> now == clock ->
  wait now (now + 0) self
  = (Ok None, set_calls self (prune W now (calls self) ++ [now + 0])) /\
  Sat cap W t0 q (c + 1) (now + 0)
      (set_calls self (prune W now (calls self) ++ [now + 0])).
Proof.
  intros [Hc Hi Hclk Hcnt Hlive] Hlt Hnow.
  rewrite (prune_clock_eq W now clock) by trivial.
  split.
  - rewrite wait_below_capacity; rewrite Hi, (prune_clock_eq W now clock);
      trivial. lia.
  - constructor; cbn [calls set_calls calls_per_interval interval]; trivial.
    + rewrite <- Hclk, <- Hnow. ring.
    + rewrite prune_app, length_app.
      unfold prune at 1. rewrite filter_all.
      * unfold prune at 2. simpl.
        replace (Qltb (now + 0 - (now + 0)) W) with true
          by (symmetry; apply Qltb_lt; lra).
        simpl. lia.
      * intros t Ht. apply Qltb_lt. pose proof (Hlive t Ht). lra.
    + intros t Ht. apply in_prune in Ht. destruct Ht as [Ht _].
      apply in_app_or in Ht. destruct Ht as [Ht|[<-|[]]]; [|reflexivity].
      pose proof (Hlive t Ht). lra.
Qed.

Lemma sat_step_full q clock self now :
  Sat cap W t0 q cap clock self -> now == clock ->
  exists oldest,
    oldest == clock /\
    wait now (now + (W - (now - oldest))) self
    = (Ok (Some (W - (now - oldest))),
       set_calls self
         (prune W now (calls self) ++ [now + (W - (now - oldest))])) /\
    sleep_request self now = Ok (Some (W - (now - oldest))) /\
    Sat cap W t0 (q + 1) 1 (now + (W - (now - oldest)))
        (set_calls self
           (prune W now (calls self) ++ [now + (W - (now - oldest))])).
Proof.
  intros [Hc Hi Hclk Hcnt Hlive] Hnow.
  rewrite (prune_clock_eq W now clock) by trivial.
  destruct (prune W clock (calls self)) as [|oldest kept] eqn:E;
    [simpl in Hcnt; lia|].
  exists oldest.
  assert (Hold : oldest == clock) by (apply Hlive; simpl; auto).
  assert (Hw : forall after,
             wait now after self
             = (Ok (Some (W - (now - oldest))),
                set_calls self ((oldest :: kept) ++ [after]))).
  { intros after. rewrite wait_unfold. unfold wait_outcome.
    rewrite Hi, Hc, (prune_clock_eq W now clock), E by trivial.
    destruct (Z.of_nat _ >=? cap)%Z eqn:G; [reflexivity|lia]. }
  split; trivial. split; [apply Hw|]. split.
  { unfold sleep_request. rewrite Hw. reflexivity. }
  set (after := now + (W - (now - oldest))).
  assert (Hafter : after == clock + W) by (unfold after; lra).
  constructor; cbn [calls set_calls calls_per_interval interval]; trivial.
  - rewrite Hafter, Hclk, inject_Z_plus. change (inject_Z 1) with 1. ring.
  - rewrite prune_app, length_app.
    unfold prune at 1. rewrite filter_none.
    + unfold prune. simpl.
      replace (Qltb (after - after) W) with true
        by (symmetry; apply Qltb_lt; lra).
      reflexivity.
    + intros t Ht. apply Qltb_ge. pose proof (Hlive t Ht). lra.
  - intros t Ht. apply in_prune in Ht. destruct Ht as [Ht Hlt].
    apply in_app_or in Ht. destruct Ht as [Ht|[<-|[]]]; [|reflexivity].
    pose proof (Hlive t Ht). lra.
Qed.

Lemma saturated_returns (arrivals : list Q) :
  forall q c clock self,
    (0 <= q)%Z -> (0 <= c <= cap)%Z ->
    Sat cap W t0 q c clock self ->
    Forall (fun a => a <= clock) arrivals ->
    forall k r,
      nth_error (ideal_trace clock arrivals self) k = Some r ->
      snd r == t0 + inject_Z ((q * cap + c + Z.of_nat k) / cap) * W.
Proof.
  induction arrivals as [|a arrivals IH];
    intros q c clock self Hq Hc HS Harr k r Hk.
  - destruct k; discriminate.
  - apply Forall_cons_iff in Harr. destruct Harr as [Ha Harr].
    assert (Hnow : Qmax clock a == clock) by (apply Q.max_l; trivial).
    cbn [ideal_trace] in Hk. set (now := Qmax clock a) in *.
    destruct (Z.eq_dec c cap) as [->|Hne].
    + destruct (sat_step_full q clock self now HS Hnow)
        as (oldest & Hold & Hw & Hreq & HS').
      rewrite Hreq in Hk. cbn [slept] in Hk. rewrite Hw in Hk. cbn [snd] in Hk.
      set (after := now + (W - (now - oldest))) in *.
      assert (Hafter : after == clock + W) by (unfold after; lra).
      destruct k as [|k]; cbn [nth_error] in Hk.
      * injection Hk as <-. cbn [snd]. rewrite Hafter, (sat_clock HS).
        replace ((q * cap + cap + Z.of_nat 0) / cap)%Z with (q + 1)%Z.
        -- rewrite inject_Z_plus. change (inject_Z 1) with 1. ring.
        -- apply Z.div_unique with (r := 0%Z); lia.
      * assert (Harr' : Forall (fun x => x <= after) arrivals).
        { eapply Forall_impl; [|exact Harr]. simpl. intros x Hx. lra. }
        rewrite (IH (q + 1)%Z 1%Z after _ ltac:(lia) ltac:(lia) HS' Harr' k r Hk).
        replace ((q + 1) * cap + 1 + Z.of_nat k)%Z
          with (q * cap + cap + Z.of_nat (S k))%Z by lia.
        reflexivity.
    + assert (Hlt : (c < cap)%Z) by lia.
      destruct (sat_step_free q c clock self now HS Hlt Hnow) as [Hw HS'].
      assert (Hreq : sleep_request self now = Ok None).
      { unfold sleep_request. rewrite wait_below_capacity; trivial.
        rewrite (sat_iv HS), (sat_cap HS),
          (prune_clock_eq W now clock), (sat_count HS); trivial. }
      rewrite Hreq in Hk. cbn [slept] in Hk. rewrite Hw in Hk. cbn [snd] in Hk.
      destruct k as [|k]; cbn [nth_error] in Hk.
      * injection Hk as <-. cbn [snd]. rewrite (sat_clock HS) in Hnow.
        replace ((q * cap + c + Z.of_nat 0) / cap)%Z with q.
        -- rewrite Hnow. ring.
        -- apply Z.div_unique with (r := c); lia.
      * assert (Harr' : Forall (fun x => x <= now + 0) arrivals).
        { eapply Forall_impl; [|exact Harr]. simpl. intros x Hx. lra. }
        rewrite (IH q (c + 1)%Z (now + 0) _ Hq ltac:(lia) HS' Harr' k r Hk).
        replace (q * cap + (c + 1) + Z.of_nat k)%Z
          with (q * cap + c + Z.of_nat (S k))%Z by lia.
        reflexivity.
Qed.

End Saturated.

(** Saturation.  Under the idealised clock, when every call is already
    waiting at the start [t0], call number [k] (from 0) returns at
    [t0 + (k / cap) W]: each window admits exactly [cap] calls, none later
    than necessary. *)
Theorem saturated_calls_return_in_batches
    (cap : Z) (W t0 : Q) (self : RateLimiter) (arrivals : list Q)
    (k : nat) (r : readings) :
  (0 < cap)%Z -> 0 < W ->
  init cap W = Ok self ->
  Forall (fun a => a <= t0) arrivals ->
  nth_error (ideal_trace t0 arrivals self) k = Some r ->
  snd r == t0 + inject_Z (Z.of_nat k / cap) * W.
Proof.
  intros Hcap HW Hinit Harr Hk. injection Hinit as <-.
  assert (HS : Sat cap W t0 0 0 t0
                 {| calls_per_interval := cap; interval := W; calls := [] |}).
  { constructor; simpl; trivial; try tauto. ring. }
  rewrite (saturated_returns cap W t0 Hcap HW arrivals 0%Z 0%Z t0 _
             ltac:(lia) ltac:(lia) HS Harr k r Hk).
  replace (0 * cap + 0 + Z.of_nat k)%Z with (Z.of_nat k) by lia.
  reflexivity.
Qed.

Lemma saturated_calls_return_in_batches_witness :
  exists r,
    nth_error (ideal_trace 0 [0; 0; 0; 0; 0; 0]
                 {| calls_per_interval := 2; interval := 10; calls := [] |}) 5
    = Some r /\
    snd r == 0 + inject_Z (Z.of_nat 5 / 2) * 10.
Proof.
  eexists. split; [vm_compute; reflexivity|].
  eapply (saturated_calls_return_in_batches 2 10 0
            {| calls_per_interval := 2; interval := 10; calls := [] |}
            [0; 0; 0; 0; 0; 0] 5);
    [reflexivity | reflexivity | reflexivity | | vm_compute; reflexivity].
  repeat constructor; vm_compute; discriminate.
Defined.

(** * Lists kept in the configuration file *)

Lemma split_not_nil (sep : char) (s : str) : split sep s <> [].
Proof.
  destruct s as [|c s]; simpl; [discriminate|].
  destruct (N.eqb c sep); [discriminate|].
  destruct (split sep s); discriminate.
Qed.

Lemma split_no_sep (sep : char) (s : str) :
  ~ In sep s -> split sep s = [s].
Proof.
  induction s as [|c s IH]; intros H; simpl; trivial.
  destruct (N.eqb_spec c sep) as [->|_]; [exfalso; apply H; simpl; auto|].
  rewrite IH; trivial. intros Hin. apply H. simpl. auto.
Qed.

Lemma split_app_sep (sep : char) (x rest : str) :
  ~ In sep x -> split sep (x ++ sep :: rest) = x :: split sep rest.
Proof.
  induction x as [|c x IH]; intros H; simpl.
  - now rewrite N.eqb_refl.
  - destruct (N.eqb_spec c sep) as [->|_]; [exfalso; apply H; simpl; auto|].
    rewrite IH; trivial. intros Hin. apply H. simpl. auto.
Qed.

Lemma split_join (sep : char) (l : list str) :
  l <> [] -> Forall (fun e => ~ In sep e) l ->
  split sep (join [sep] l) = l.
Proof.
  induction l as [|x l IH]; intros Hne Hl; [congruence|].
  apply Forall_cons_iff in Hl. destruct Hl as [Hx Hl].
  destruct l as [|y l].
  - simpl. apply split_no_sep, Hx.
  - change (join [sep] (x :: y :: l)) with (x ++ sep :: join [sep] (y :: l)).
    rewrite split_app_sep by trivial. f_equal. apply IH; [discriminate|trivial].
Qed.

Lemma split_fields_no_sep (sep : char) (s : str) :
  Forall (fun e => ~ In sep e) (split sep s).
Proof.
  induction s as [|c s IH]; simpl.
  - repeat constructor. tauto.
  - destruct (N.eqb_spec c sep) as [->|Hc].
    + constructor; [tauto|trivial].
    + destruct (split sep s) as [|field fields]; [repeat constructor; simpl; intuition|].
      apply Forall_cons_iff in IH. destruct IH as [Hf Hfs].
      constructor; trivial. simpl. intuition.
Qed.

Section Strip.

Variable isspace : char -> bool.

Lemma lstrip_incl (s : str) (x : char) : In x (lstrip isspace s) -> In x s.
Proof.
  induction s as [|c s IH]; simpl; trivial.
  destruct (isspace c); simpl; auto.
Qed.

Lemma rstrip_incl (s : str) (x : char) : In x (rstrip isspace s) -> In x s.
Proof.
  revert x. induction s as [|c s IH]; intros x; simpl; trivial.
  destruct (rstrip isspace s) as [|r rs].
  - destruct (isspace c); simpl; tauto.
  - simpl. intros [H|H]; auto.
Qed.

Lemma strip_incl (s : str) (x : char) : In x (strip isspace s) -> In x s.
Proof. intros H. apply lstrip_incl, rstrip_incl, H. Qed.

Lemma lstrip_head (s : str) :
  match lstrip isspace s with
  | [] => True
  | c :: _ => isspace c = false
  end.
Proof.
  induction s as [|c s IH]; simpl; trivial.
  destruct (isspace c) eqn:E; trivial.
Qed.

Lemma rstrip_last (s : str) (d : char) :
  match rstrip isspace s with
  | [] => True
  | c :: r => isspace (last (c :: r) d) = false
  end.
Proof.
  induction s as [|c s IH]; simpl; trivial.
  destruct (rstrip isspace s) as [|r rs].
  - destruct (isspace c) eqn:E; trivial.
  - exact IH.
Qed.

Lemma rstrip_head (c : char) (s : str) :
  isspace c = false ->
  exists r, rstrip isspace (c :: s) = c :: r.
Proof.
  intros Hc. simpl. destruct (rstrip isspace s) as [|r rs].
  - rewrite Hc. eauto.
  - eauto.
Qed.

Lemma rstrip_id (s : str) (d : char) :
  s <> [] -> isspace (last s d) = false -> rstrip isspace s = s.
Proof.
  induction s as [|c s IH]; intros Hne Hl; [congruence|].
  destruct s as [|c' s].
  - simpl in *. now rewrite Hl.
  - change (last (c :: c' :: s) d) with (last (c' :: s) d) in Hl.
    change (rstrip isspace (c :: c' :: s))
      with (match rstrip isspace (c' :: s) with
            | [] => if isspace c then [] else [c]
            | r => c :: r
            end).
    rewrite IH; [reflexivity|discriminate|trivial].
Qed.

Lemma last_indep (s : str) (d d' : char) : s <> [] -> last s d = last s d'.
Proof.
  induction s as [|c s IH]; intros H; [congruence|].
  destruct s as [|c' s]; trivial. apply IH. discriminate.
Qed.

Variable sep : char.

Lemma tidy_spec (s : str) :
  tidy isspace sep s = true <->
  s <> [] /\ isspace (hd sep s) = false /\ isspace (last s sep) = false /\
  ~ In sep s.
Proof.
  destruct s as [|c s]; [simpl; intuition congruence|].
  unfold tidy. rewrite !andb_true_iff, !negb_true_iff. cbn [hd].
  rewrite (last_indep (c :: s) c sep) by discriminate.
  assert (Hex : existsb (N.eqb sep) (c :: s) = false <-> ~ In sep (c :: s)).
  { split.
    - intros He Hin. assert (existsb (N.eqb sep) (c :: s) = true).
      { apply existsb_exists. exists sep. split; trivial. apply N.eqb_refl. }
      congruence.
    - intros Hn. destruct (existsb _ _) eqn:E; trivial.
      apply existsb_exists in E. destruct E as (x & Hx & Ex).
      apply N.eqb_eq in Ex. subst. tauto. }
  rewrite Hex. intuition discriminate.
Qed.

Lemma strip_tidy_id (s : str) : tidy isspace sep s = true -> strip isspace s = s.
Proof.
  intros H. apply tidy_spec in H. destruct H as (Hne & Hh & Hl & _).
  unfold strip. destruct s as [|c s]; [congruence|].
  simpl in Hh. simpl lstrip. rewrite Hh.
  apply (rstrip_id _ sep); trivial.
Qed.

Lemma strip_is_tidy (s : str) :
  ~ In sep s -> strip isspace s <> [] -> tidy isspace sep (strip isspace s) = true.
Proof.
  intros Hsep Hne. apply tidy_spec. split; trivial.
  assert (Hno : ~ In sep (strip isspace s))
    by (intros H; apply Hsep, strip_incl, H).
  unfold strip in *.
  pose proof (lstrip_head s) as Hh.
  pose proof (rstrip_last (lstrip isspace s) sep) as Hl.
  destruct (lstrip isspace s) as [|c u]; [simpl in Hne; congruence|].
  destruct (rstrip_head c u Hh) as [r Hr].
  rewrite Hr in *. simpl hd. auto.
Qed.

Lemma truthy_spec (s : str) : truthy s = true <-> s <> [].
Proof. destruct s; simpl; split; congruence. Qed.

(** Every entry the comprehension returns is tidy. *)
Lemma split_stripped_tidy (line : str) :
  Forall (fun e => tidy isspace sep e = true) (split_stripped isspace sep line).
Proof.
  unfold split_stripped. apply Forall_forall. intros e He.
  apply in_map_iff in He. destruct He as (raw & <- & Hraw).
  apply filter_In in Hraw. destruct Hraw as [Hin Ht].
  apply truthy_spec in Ht.
  pose proof (split_fields_no_sep sep line) as Hs.
  rewrite Forall_forall in Hs. apply strip_is_tidy; auto.
Qed.

(** Tidy names come back unchanged. *)
Lemma split_stripped_join (names : list str) :
  Forall (fun e => tidy isspace sep e = true) names ->
  split_stripped isspace sep (join [sep] names) = names.
Proof.
  intros Hn. unfold split_stripped.
  destruct names as [|x names]; [reflexivity|].
  rewrite split_join; [|discriminate|].
  - rewrite filter_all.
    + rewrite <- (map_id (x :: names)) at 2. apply map_ext_in.
      intros e He. rewrite Forall_forall in Hn. apply strip_tidy_id; auto.
    + intros e He. rewrite Forall_forall in Hn.
      rewrite strip_tidy_id by auto. apply truthy_spec.
      pose proof (Hn e He) as Ht. apply tidy_spec in Ht. tauto.
  - eapply Forall_impl; [|exact Hn]. intros e He. apply tidy_spec in He. tauto.
Qed.

Lemma split_stripped_roundtrip_iff (names : list str) :
  split_stripped isspace sep (join [sep] names) = names <->
  Forall (fun e => tidy isspace sep e = true) names.
Proof.
  split.
  - intros <-. apply split_stripped_tidy.
  - apply split_stripped_join.
Qed.

End Strip.

(** Entries read from the configuration are never empty, never carry white
    space at either end and never contain the separator: ['|'] for
    [self.extensions] in [load_config], [','] in [get_enabled_custom_apps]. *)
Theorem configured_lists_hold_tidy_names (isspace : char -> bool) (line : str) :
  Forall (fun e => tidy isspace 124%N e = true)
         (load_config_extensions isspace line) /\
  Forall (fun e => tidy isspace 44%N e = true)
         (get_enabled_custom_apps isspace line).
Proof. split; apply split_stripped_tidy. Qed.

(** A configured line that lists names between ['|'] (between [','] for the
    custom apps) is read as those names exactly when every name is tidy: a
    name that is empty, padded with white space or contains the separator is
    read as something else. *)
Theorem configured_line_read_as_names_iff_tidy
    (isspace : char -> bool) (names : list str) :
  (load_config_extensions isspace (join (py "|") names) = names <->
   Forall (fun e => tidy isspace 124%N e = true) names) /\
  (get_enabled_custom_apps isspace (join (py ",") names) = names <->
   Forall (fun e => tidy isspace 44%N e = true) names).
Proof. split; apply split_stripped_roundtrip_iff. Qed.

(** A name that contains ['|'] is read as two entries. *)
Example extension_name_with_bar_is_split :
  load_config_extensions py_isspace (join (py "|") [py "a|b.js"; py "c.js"])
  = [py "a"; py "b.js"; py "c.js"].
Proof. vm_compute. reflexivity. Qed.

(** * Custom repositories *)

Lemma str_eqb_eq (a b : str) : str_eqb a b = true <-> a = b.
Proof.
  unfold str_eqb. destruct (list_eq_dec N.eq_dec a b); split; congruence.
Qed.

Lemma list_remove_Ok (x : str) (l l' : list str) :
  list_remove x l = Ok l' -> Permutation l (x :: l').
Proof.
  revert l'. induction l as [|y l IH]; intros l' H; simpl in H; [discriminate|].
  destruct (str_eqb y x) eqn:E.
  - apply str_eqb_eq in E. subst. injection H as <-. reflexivity.
  - destruct (list_remove x l) as [r|e]; [|discriminate].
    injection H as <-. rewrite (IH r eq_refl). apply perm_swap.
Qed.

Lemma list_remove_In (x : str) (l : list str) :
  In x l -> exists l', list_remove x l = Ok l'.
Proof.
  induction l as [|y l IH]; intros H; [destruct H|]. simpl.
  destruct (str_eqb y x) eqn:E; [eauto|].
  destruct H as [->|H].
  - assert (str_eqb x x = true) by (apply str_eqb_eq; reflexivity). congruence.
  - destruct (IH H) as [l' ->]. eauto.
Qed.

Lemma list_remove_missing (x : str) (l : list str) :
  ~ In x l -> list_remove x l = Raise ValueError.
Proof.
  induction l as [|y l IH]; intros H; simpl; trivial.
  destruct (str_eqb y x) eqn:E.
  - apply str_eqb_eq in E. subst. exfalso. apply H. simpl. auto.
  - rewrite IH; trivial. intros Hin. apply H. simpl. auto.
Qed.

Lemma list_remove_last (x : str) (l : list str) :
  ~ In x l -> list_remove x (l ++ [x]) = Ok l.
Proof.
  induction l as [|y l IH]; intros H; simpl.
  - assert (E : str_eqb x x = true) by (apply str_eqb_eq; reflexivity).
    now rewrite E.
  - destruct (str_eqb y x) eqn:E.
    + apply str_eqb_eq in E. subst. exfalso. apply H. simpl. auto.
    + rewrite IH; trivial. intros Hin. apply H. simpl. auto.
Qed.

(** [remove_custom_repo] completes exactly when the selected texts can be
    taken out of [self.custom_repos] one for one; it then leaves the other
    entries, and otherwise [list.remove] raises [ValueError]. *)
Theorem remove_custom_repo_completes_iff_selection_present
    (selected custom_repos : list str) :
  ((exists l, remove_custom_repo selected custom_repos = (Ok tt, l)) <->
   (exists rest, Permutation custom_repos (selected ++ rest))) /\
  (forall l, remove_custom_repo selected custom_repos = (Ok tt, l) ->
             Permutation custom_repos (selected ++ l)) /\
  (forall e l, remove_custom_repo selected custom_repos = (Raise e, l) ->
               e = ValueError).
Proof.
  assert (Hok : forall sel repos l,
             remove_custom_repo sel repos = (Ok tt, l) ->
             Permutation repos (sel ++ l)).
  { induction sel as [|item sel IH]; intros repos l H; simpl in H.
    - injection H as <-. reflexivity.
    - destruct (list_remove item repos) as [r|e] eqn:E; [|discriminate].
      apply list_remove_Ok in E. rewrite E. simpl. constructor.
      apply IH, H. }
  split; [split|split].
  - intros [l H]. exists l. apply Hok, H.
  - intros [rest H]. revert custom_repos H.
    induction selected as [|item sel IH]; intros repos H; simpl.
    + eauto.
    + destruct (list_remove_In item repos) as [r Hr].
      { apply (Permutation_in _ (Permutation_sym H)). simpl. auto. }
      rewrite Hr. apply IH. apply list_remove_Ok in Hr.
      rewrite Hr in H. simpl in H. apply Permutation_cons_inv in H. exact H.
  - apply Hok.
  - revert custom_repos.
    induction selected as [|item sel IH]; intros repos e l H; simpl in H.
    + discriminate.
    + destruct (list_remove item repos) as [r|e'] eqn:E.
      * apply (IH r e l H).
      * injection H as <- _. destruct (in_dec (list_eq_dec N.eq_dec) item repos)
          as [Hin|Hout].
        -- destruct (list_remove_In item repos Hin) as [r Hr]. congruence.
        -- rewrite list_remove_missing in E by trivial. congruence.
Qed.

(** Adding a repository and removing it again never fails and never loses
    an entry; the list is restored exactly when the address was not in it
    before, and up to order otherwise. *)
Theorem add_then_remove_custom_repo (url : str) (custom_repos : list str) :
  url <> [] ->
  exists l,
    remove_custom_repo [url] (add_custom_repo url true custom_repos)
    = (Ok tt, l) /\
    Permutation l custom_repos /\
    (~ In url custom_repos -> l = custom_repos).
Proof.
  intros Hurl. unfold add_custom_repo.
  replace (truthy url) with true by (symmetry; apply truthy_spec; trivial).
  simpl andb. cbv iota.
  destruct (list_remove_In url (custom_repos ++ [url])) as [l Hl].
  { apply in_or_app. simpl. auto. }
  exists l. simpl. rewrite Hl. split; trivial. split.
  - apply list_remove_Ok in Hl.
    apply Permutation_cons_inv with (a := url).
    rewrite <- Hl. symmetry. apply Permutation_cons_append.
  - intros Hout. rewrite list_remove_last in Hl by trivial. congruence.
Qed.

Lemma add_then_remove_custom_repo_witness :
  exists l,
    remove_custom_repo [py "a"] (add_custom_repo (py "a") true [py "a"; py "b"])
    = (Ok tt, l) /\
    Permutation l [py "a"; py "b"] /\
    (~ In (py "a") [py "a"; py "b"] -> l = [py "a"; py "b"]).
Proof.
  apply (add_then_remove_custom_repo (py "a") [py "a"; py "b"]).
  discriminate.
Defined.

(** With the address already present the order changes. *)
Example add_then_remove_duplicate_reorders :
  remove_custom_repo [py "a"] (add_custom_repo (py "a") true [py "a"; py "b"])
  = (Ok tt, [py "b"; py "a"]).
Proof. vm_compute. reflexivity. Qed.

(** * The version printed by [spicetify -v] *)

Lemma span_spec (p : char -> bool) (s : str) :
  forall run rest, span p s = (run, rest) ->
    s = run ++ rest /\ forallb p run = true /\ not_starting p rest.
Proof.
  induction s as [|c s IH]; intros run rest H; simpl in H.
  - injection H as <- <-. simpl. auto.
  - destruct (p c) eqn:E.
    + destruct (span p s) as [run' rest'] eqn:Es. injection H as <- <-.
      destruct (IH run' rest' eq_refl) as (-> & Hall & Hrest).
      simpl. rewrite E. auto.
    + injection H as <- <-. simpl. auto.
Qed.

Lemma span_run_app (p : char -> bool) (run rest : str) :
  forallb p run = true ->
  span p (run ++ rest) = (run ++ fst (span p rest), snd (span p rest)).
Proof.
  induction run as [|c run IH]; intros H; simpl.
  - destruct (span p rest); reflexivity.
  - simpl in H. apply andb_true_iff in H. destruct H as [Hc H].
    rewrite Hc, (IH H). reflexivity.
Qed.

Lemma span_not_starting (p : char -> bool) (s : str) :
  not_starting p s -> span p s = ([], s).
Proof.
  destruct s as [|c s]; simpl; trivial. intros ->. reflexivity.
Qed.

Lemma span_exact (p : char -> bool) (run rest : str) :
  forallb p run = true -> not_starting p rest ->
  span p (run ++ rest) = (run, rest).
Proof.
  intros Hrun Hrest. rewrite span_run_app by trivial.
  rewrite span_not_starting by trivial. simpl. now rewrite app_nil_r.
Qed.

Lemma factor_refl (s : str) : factor s s.
Proof. exists [], []. simpl. now rewrite app_nil_r. Qed.

Lemma factor_trans (a b c : str) : factor a b -> factor b c -> factor a c.
Proof.
  intros (p1 & q1 & ->) (p2 & q2 & ->).
  exists (p2 ++ p1), (q1 ++ q2). now rewrite <- !app_assoc.
Qed.

Lemma factor_cons (g s : str) (c : char) : factor g s -> factor g (c :: s).
Proof. intros (p & q & ->). exists (c :: p), q. reflexivity. Qed.

Lemma lstrip_factor (f : char -> bool) (s : str) : factor (lstrip f s) s.
Proof.
  induction s as [|c s IH]; simpl; [apply factor_refl|].
  destruct (f c); [apply factor_cons, IH|apply factor_refl].
Qed.

Lemma rstrip_factor (f : char -> bool) (s : str) : factor (rstrip f s) s.
Proof.
  assert (H : exists post, s = rstrip f s ++ post).
  { induction s as [|c s [post IH]]; simpl; [exists []; reflexivity|].
    destruct (rstrip f s) as [|r rs].
    - destruct (f c).
      + exists (c :: s). reflexivity.
      + exists post. simpl in IH. now rewrite IH at 1.
    - exists post. simpl. now rewrite IH at 1. }
  destruct H as [post H]. exists [], post. exact H.
Qed.

Lemma strip_factor (f : char -> bool) (s : str) : factor (strip f s) s.
Proof.
  unfold strip. eapply factor_trans; [apply rstrip_factor|apply lstrip_factor].
Qed.

Section Version.

Variable isdigit : char -> bool.

Lemma digits_dot_sound (s run rest : str) :
  digits_dot isdigit s = Some (run, rest) ->
  s = run ++ [46%N] ++ rest /\ digit_run isdigit run.
Proof.
  unfold digits_dot. destruct (span isdigit s) as [r t] eqn:E.
  destruct (span_spec isdigit s r t E) as (-> & Hall & _).
  destruct r as [|c r]; [discriminate|].
  destruct t as [|d t]; [discriminate|].
  destruct (N.eqb_spec d 46) as [Hd|]; [|discriminate].
  intros H. inversion H. subst. split; [reflexivity|].
  split; [discriminate|trivial].
Qed.

Lemma digits_dot_complete (run rest : str) :
  isdigit 46%N = false -> digit_run isdigit run ->
  digits_dot isdigit (run ++ [46%N] ++ rest) = Some (run, rest).
Proof.
  intros Hdot [Hne Hall]. unfold digits_dot.
  rewrite span_exact by trivial.
  destruct run as [|c run]; [congruence|]. reflexivity.
Qed.

Lemma match_triple_sound (s g : str) :
  match_triple isdigit s = Some g ->
  well_formed_version isdigit g /\ exists post, s = g ++ post.
Proof.
  unfold match_triple.
  destruct (digits_dot isdigit s) as [[d1 s1]|] eqn:E1; [|discriminate].
  destruct (digits_dot isdigit s1) as [[d2 s2]|] eqn:E2; [|discriminate].
  destruct (span isdigit s2) as [d3 post] eqn:E3.
  destruct d3 as [|c d3]; [discriminate|].
  intros H. injection H as <-.
  apply digits_dot_sound in E1, E2. destruct E1 as [-> R1], E2 as [-> R2].
  destruct (span_spec isdigit s2 _ _ E3) as (-> & Hall & _).
  split.
  - exists d1, d2, (c :: d3). split; [reflexivity|].
    split; [exact R1|]. split; [exact R2|].
    split; [discriminate|exact Hall].
  - exists post. unfold dotted. simpl. rewrite <- !app_assoc. simpl.
    rewrite <- ?app_assoc. reflexivity.
Qed.

Lemma match_triple_complete (d1 d2 d3 post : str) :
  isdigit 46%N = false ->
  digit_run isdigit d1 -> digit_run isdigit d2 -> digit_run isdigit d3 ->
  match_triple isdigit (dotted d1 d2 d3 ++ post)
  = Some (dotted d1 d2 (d3 ++ fst (span isdigit post))).
Proof.
  intros Hdot R1 R2 R3. unfold match_triple, dotted.
  rewrite <- !app_assoc.
  rewrite (digits_dot_complete d1 _ Hdot R1).
  rewrite (digits_dot_complete d2 _ Hdot R2).
  rewrite span_run_app by apply R3.
  destruct R3 as [Hne _]. destruct d3 as [|c d3]; [congruence|].
  reflexivity.
Qed.

Lemma match_triple_nondigit (c : char) (s : str) :
  isdigit c = false -> match_triple isdigit (c :: s) = None.
Proof.
  intros Hc. unfold match_triple, digits_dot. simpl. now rewrite Hc.
Qed.

Lemma match_version_at_sound (s g : str) :
  match_version_at isdigit s = Some g ->
  well_formed_version isdigit g /\ factor g s.
Proof.
  assert (Hs : forall t, match_triple isdigit t = Some g ->
                  well_formed_version isdigit g /\ factor g t).
  { intros t H. apply match_triple_sound in H. destruct H as [Hw [post ->]].
    split; trivial. exists [], post. reflexivity. }
  destruct s as [|c s]; simpl; [discriminate|].
  destruct (c =? 118)%N; [|apply Hs].
  destruct (match_triple isdigit s) as [g'|] eqn:E; [|apply Hs].
  intros H. injection H as ->. destruct (Hs s E) as [Hw Hf].
  split; trivial. apply factor_cons, Hf.
Qed.

Lemma re_search_version_sound (s g : str) :
  re_search_version isdigit s = Some g ->
  well_formed_version isdigit g /\ factor g s.
Proof.
  induction s as [|c s IH]; simpl.
  - discriminate.
  - change (match (if (c =? 118)%N then _ else _) with
            | Some g0 => Some g0
            | None => re_search_version isdigit s
            end = Some g -> well_formed_version isdigit g /\ factor g (c :: s))
      with (match match_version_at isdigit (c :: s) with
            | Some g0 => Some g0
            | None => re_search_version isdigit s
            end = Some g -> well_formed_version isdigit g /\ factor g (c :: s)).
    destruct (match_version_at isdigit (c :: s)) as [g'|] eqn:E.
    + intros H. injection H as ->. apply match_version_at_sound, E.
    + intros H. destruct (IH H) as [Hw Hf]. split; trivial.
      apply factor_cons, Hf.
Qed.

Lemma re_search_version_complete (g s : str) :
  isdigit 46%N = false ->
  well_formed_version isdigit g -> factor g s ->
  re_search_version isdigit s <> None.
Proof.
  intros Hdot (d1 & d2 & d3 & -> & R1 & R2 & R3) (pre & post & ->).
  induction pre as [|c pre IH].
  - simpl app.
    pose proof (match_triple_complete d1 d2 d3 post Hdot R1 R2 R3) as Hm.
    destruct (dotted d1 d2 d3 ++ post) as [|c s] eqn:Es.
    + unfold dotted in Es. destruct R1 as [Hne _].
      destruct d1; [congruence|discriminate].
    + cbn [re_search_version match_version_at].
      destruct (c =? 118)%N.
      * destruct (match_triple isdigit s); [discriminate|].
        rewrite Hm. discriminate.
      * rewrite Hm. discriminate.
  - change ((c :: pre) ++ dotted d1 d2 d3 ++ post)
      with (c :: (pre ++ dotted d1 d2 d3 ++ post)).
    cbn [re_search_version].
    destruct (match_version_at isdigit (c :: pre ++ dotted d1 d2 d3 ++ post));
      [discriminate|exact IH].
Qed.

End Version.

(** [parse_spicetify_version] returns a well-formed version, three runs of
    digits joined by dots, exactly when the output contains one; what it
    returns then occurs in the output. *)
Theorem parse_spicetify_version_well_formed_iff
    (isspace isdigit : char -> bool) (output : str) :
  isdigit 46%N = false ->
  (well_formed_version isdigit
     (parse_spicetify_version isspace isdigit output) <->
   exists g, well_formed_version isdigit g /\ factor g output) /\
  (well_formed_version isdigit
     (parse_spicetify_version isspace isdigit output) ->
   factor (parse_spicetify_version isspace isdigit output) output).
Proof.
  intros Hdot. unfold parse_spicetify_version.
  destruct (re_search_version isdigit output) as [g|] eqn:E.
  - apply re_search_version_sound in E. destruct E as [Hw Hf].
    split; [|trivial]. split; eauto.
  - assert (Hf : factor (strip (fun c => (c =? 118)%N) (strip isspace output))
                   output).
    { eapply factor_trans; apply strip_factor. }
    split; [|trivial]. split.
    + intros Hw. eauto.
    + intros (g & Hw & Hg). exfalso.
      apply (re_search_version_complete isdigit g output Hdot Hw Hg E).
Qed.

Lemma parse_spicetify_version_well_formed_iff_witness :
  (well_formed_version ascii_isdigit
     (parse_spicetify_version py_isspace ascii_isdigit (py "spicetify v2.38.3"))
   <->
   exists g, well_formed_version ascii_isdigit g /\
             factor g (py "spicetify v2.38.3")) /\
  (well_formed_version ascii_isdigit
     (parse_spicetify_version py_isspace ascii_isdigit (py "spicetify v2.38.3"))
   ->
   factor
     (parse_spicetify_version py_isspace ascii_isdigit (py "spicetify v2.38.3"))
     (py "spicetify v2.38.3")).
Proof.
  apply (parse_spicetify_version_well_formed_iff py_isspace ascii_isdigit
           (py "spicetify v2.38.3")).
  reflexivity.
Defined.

Lemma match_triple_after_nondigits (isdigit : char -> bool)
    (pre d1 d2 d3 post g : str) :
  isdigit 46%N = false ->
  forallb (fun c => negb (isdigit c)) pre = true ->
  digit_run isdigit d1 -> digit_run isdigit d2 -> digit_run isdigit d3 ->
  not_starting isdigit post ->
  match_triple isdigit (pre ++ dotted d1 d2 d3 ++ post) = Some g ->
  pre = [] /\ g = dotted d1 d2 d3.
Proof.
  intros Hdot Hpre R1 R2 R3 Hpost H. destruct pre as [|c pre].
  - simpl in H. rewrite match_triple_complete in H by trivial.
    rewrite span_not_starting in H by trivial. simpl in H.
    rewrite app_nil_r in H. injection H as <-. auto.
  - simpl in Hpre. apply andb_true_iff in Hpre. destruct Hpre as [Hc _].
    apply negb_true_iff in Hc.
    simpl in H. rewrite match_triple_nondigit in H by trivial. discriminate.
Qed.

(** When nothing before the version is a digit and no digit follows it, the
    version is what [parse_spicetify_version] returns, with or without a
    leading [v]. *)
Theorem parse_spicetify_version_extracts
    (isspace isdigit : char -> bool) (pre d1 d2 d3 post : str) :
  isdigit 46%N = false -> isdigit 118%N = false ->
  forallb (fun c => negb (isdigit c)) pre = true ->
  digit_run isdigit d1 -> digit_run isdigit d2 -> digit_run isdigit d3 ->
  not_starting isdigit post ->
  parse_spicetify_version isspace isdigit (pre ++ dotted d1 d2 d3 ++ post)
  = dotted d1 d2 d3.
Proof.
  intros Hdot Hv Hpre R1 R2 R3 Hpost. unfold parse_spicetify_version.
  assert (Hs : re_search_version isdigit (pre ++ dotted d1 d2 d3 ++ post)
               = Some (dotted d1 d2 d3)); [|now rewrite Hs].
  induction pre as [|c pre IH].
  - simpl app.
    pose proof (match_triple_complete isdigit d1 d2 d3 post Hdot R1 R2 R3) as Hm.
    rewrite span_not_starting in Hm by trivial. simpl in Hm.
    rewrite app_nil_r in Hm.
    destruct (dotted d1 d2 d3 ++ post) as [|c s] eqn:Es.
    + unfold dotted in Es. destruct R1 as [Hne _].
      destruct d1; [congruence|discriminate].
    + assert (Hc : isdigit c = true).
      { destruct R1 as [Hne Hall]. unfold dotted in Es.
        destruct d1 as [|c1 d1]; [congruence|].
        simpl in Es. injection Es as -> _. simpl in Hall.
        apply andb_true_iff in Hall. tauto. }
      cbn [re_search_version match_version_at].
      destruct (N.eqb_spec c 118) as [->|_]; [congruence|].
      now rewrite Hm.
  - simpl in Hpre. apply andb_true_iff in Hpre. destruct Hpre as [Hc Hpre].
    apply negb_true_iff in Hc. specialize (IH Hpre).
    change ((c :: pre) ++ dotted d1 d2 d3 ++ post)
      with (c :: (pre ++ dotted d1 d2 d3 ++ post)).
    cbn [re_search_version match_version_at].
    rewrite (match_triple_nondigit isdigit c _ Hc).
    destruct (c =? 118)%N; [|exact IH].
    destruct (match_triple isdigit (pre ++ dotted d1 d2 d3 ++ post)) as [g|] eqn:E;
      [|exact IH].
    destruct (match_triple_after_nondigits isdigit pre d1 d2 d3 post g
                Hdot Hpre R1 R2 R3 Hpost E) as [_ ->].
    reflexivity.
Qed.

Lemma parse_spicetify_version_extracts_witness :
  parse_spicetify_version py_isspace ascii_isdigit
    (py "spicetify v" ++ dotted (py "2") (py "38") (py "3") ++ [10%N])
  = dotted (py "2") (py "38") (py "3").
Proof.
  apply (parse_spicetify_version_extracts py_isspace ascii_isdigit
           (py "spicetify v") (py "2") (py "38") (py "3") [10%N]);
    try reflexivity; split; (discriminate || reflexivity).
Defined.

(** * The log: escape sequences *)

Lemma sub_csi_skip (x b : str) :
  sub_csi (length x) (x ++ b) = sub_csi 0 b.
Proof. induction x as [|c x IH]; simpl; trivial. Qed.

Lemma match_csi_no_escape (c : char) (s : str) :
  c <> 27%N -> match_csi (c :: s) = None.
Proof.
  intros Hc. unfold match_csi. destruct s as [|b s]; trivial.
  destruct (N.eqb_spec c 27); [congruence|reflexivity].
Qed.

Lemma sub_csi_plain (a rest : str) :
  ~ In 27%N a -> sub_csi 0 (a ++ rest) = a ++ sub_csi 0 rest.
Proof.
  induction a as [|c a IH]; intros H; trivial.
  change ((c :: a) ++ rest) with (c :: (a ++ rest)). cbn [sub_csi].
  rewrite match_csi_no_escape by (intros ->; apply H; simpl; auto).
  rewrite IH; trivial. intros Hin. apply H. simpl. auto.
Qed.

Lemma match_csi_sequence (params inters : str) (final : char) (b : str) :
  forallb (in_range 48%N 63%N) params = true ->
  forallb (in_range 32%N 47%N) inters = true ->
  in_range 64%N 126%N final = true ->
  match_csi (csi params inters final ++ b)
  = Some (length (csi params inters final)).
Proof.
  intros Hp Hi Hf.
  assert (Hf1 : in_range 48%N 63%N final = false).
  { unfold in_range in *. apply andb_true_iff in Hf. destruct Hf as [H1 H2].
    apply N.leb_le in H1. apply andb_false_iff. right. apply N.leb_gt. lia. }
  assert (Hf2 : in_range 32%N 47%N final = false).
  { unfold in_range in *. apply andb_true_iff in Hf. destruct Hf as [H1 H2].
    apply N.leb_le in H1. apply andb_false_iff. right. apply N.leb_gt. lia. }
  assert (Hstart : not_starting (in_range 48%N 63%N) (inters ++ final :: b)).
  { destruct inters as [|i inters]; simpl; trivial.
    simpl in Hi. apply andb_true_iff in Hi. destruct Hi as [Hi _].
    unfold in_range in *. apply andb_true_iff in Hi. destruct Hi as [H1 H2].
    apply N.leb_le in H2. apply andb_false_iff. left. apply N.leb_gt. lia. }
  unfold csi, match_csi. simpl app at 1. cbn [app].
  change ((27 =? 27)%N && (91 =? 91)%N) with true. cbv iota.
  replace ((params ++ inters ++ [final]) ++ b)
    with (params ++ (inters ++ final :: b))
    by (rewrite <- !app_assoc; reflexivity).
  rewrite (span_exact _ params _ Hp Hstart).
  rewrite (span_exact _ inters (final :: b) Hi Hf2).
  rewrite Hf. cbn [length]. rewrite !length_app. cbn [length]. f_equal. lia.
Qed.

(** A message without the escape character is logged as it is. *)
Theorem log_keeps_text_without_escape (message : str) :
  ~ In 27%N message -> log message = message.
Proof.
  intros H. unfold log.
  rewrite <- (app_nil_r message) at 1.
  rewrite sub_csi_plain by trivial. simpl. apply app_nil_r.
Qed.

Lemma log_keeps_text_without_escape_witness :
  log (py "spicetify apply: done") = py "spicetify apply: done".
Proof.
  apply (log_keeps_text_without_escape (py "spicetify apply: done")).
  vm_compute. intuition discriminate.
Defined.

(** A control sequence that follows text without escape characters is
    dropped by [log], and the rest of the message is treated the same way. *)
Theorem log_drops_control_sequence
    (before params inters : str) (final : char) (rest : str) :
  ~ In 27%N before ->
  forallb (in_range 48%N 63%N) params = true ->
  forallb (in_range 32%N 47%N) inters = true ->
  in_range 64%N 126%N final = true ->
  log (before ++ csi params inters final ++ rest) = before ++ log rest.
Proof.
  intros Hb Hp Hi Hf. unfold log. rewrite sub_csi_plain by trivial. f_equal.
  pose proof (match_csi_sequence params inters final rest Hp Hi Hf) as Hm.
  remember (csi params inters final) as seq eqn:Hseq.
  destruct seq as [|c seq]; [discriminate|].
  change ((c :: seq) ++ rest) with (c :: (seq ++ rest)) in *.
  cbn [sub_csi]. rewrite Hm. simpl length.
  rewrite Nat.sub_1_r. simpl Nat.pred. apply sub_csi_skip.
Qed.

Lemma log_drops_control_sequence_witness :
  log (py "ok " ++ csi (py "1;32") [] 109%N ++ py "done")
  = py "ok " ++ log (py "done").
Proof.
  apply (log_drops_control_sequence (py "ok ") (py "1;32") [] 109%N (py "done"));
    [vm_compute; intuition discriminate | reflexivity | reflexivity
    | reflexivity].
Defined.

(** One pass only: text that the removal of a sequence brings together is
    not looked at again, so a sequence can remain in the log. *)
Example log_can_leave_a_control_sequence :
  log ([27%N] ++ csi [] [] 109%N ++ py "[m") = csi [] [] 109%N.
Proof. vm_compute. reflexivity. Qed.

(** * What "Apply" writes after the table was filled *)







Lemma ticked_items_are_filter {A} (f : A -> bool) (l : list A) :
  map snd (filter fst (map (fun a => (f a, a)) l)) = filter f l.
Proof.
  induction l as [|a l IH]; simpl; trivial.
  destruct (f a); simpl; now rewrite IH.
Qed.

(** After [load_custom_apps], the apps that [apply_custom_apps] collects
    when no tick was touched are the entries of the listing that are
    directories and are enabled in the configured line, in the order of the
    listing; an app named in the configuration that has no directory is not
    among them. *)
Theorem apply_custom_apps_keeps_enabled_directories
    (isspace : char -> bool) (listing : list (str * bool)) (apps_line : str) :
  apply_custom_apps_enabled (load_custom_apps isspace listing apps_line)
  = filter (fun app => existsb (str_eqb app)
                         (get_enabled_custom_apps isspace apps_line))
           (map fst (filter snd listing)).
Proof.
  unfold apply_custom_apps_enabled, load_custom_apps.
  apply ticked_items_are_filter.
Qed.


(** With "SHUF" in the search box, "Apply" collects [Shuffle.js] alone:
    [adblock.js], enabled but hidden, is left out. *)
Example apply_with_search_text_drops_hidden_extension :
  apply_changes_selected
    (populate_extensions ascii_lower true demo_files (py "SHUF") (py "Name")
       demo_extensions [])
  = [py "Shuffle.js"].
Proof. vm_compute. reflexivity. Qed.

Lemma remove_custom_repo_completes_iff_selection_present_witness :
  Permutation [py "a"; py "b"; py "c"] ([py "b"] ++ [py "a"; py "c"]).
Proof.
  exact (proj1 (proj2 (remove_custom_repo_completes_iff_selection_present
                         [py "b"] [py "a"; py "b"; py "c"]))
           [py "a"; py "c"] eq_refl).
Defined.

(** * Spacing measured from the recorded stamp *)

Lemma chain_head_le (g x y : Q) (l : list Q) :
  x <= y -> chain g x l -> chain g y l.
Proof.
  intros Hxy. destruct l as [|t l]; simpl; trivial.
  intros [H Hc]. split; trivial. lra.
Qed.

Lemma spaced_readings_no_sleep (cap : Z) (W g : Q) :
  (0 < cap)%Z -> 0 < g -> W == inject_Z cap * g ->
  forall tr prev h self po,
    Inv cap W prev h self ->
    match tr with
    | [] => True
    | (now, _) :: _ => prev <= now /\ chain g now (rev h)
    end ->
    spaced_readings g po tr ->
    exists self', wait_all tr self = (Ok (repeat None (length tr)), self').
Proof.
  intros Hcap Hg Hshare.
  induction tr as [|[now after] tr IH]; intros prev h self po I Hfirst Hsp.
  - exists self. reflexivity.
  - destruct Hfirst as [Hprev Hchain]. destruct Hsp as (_ & Hna & Hsp).
    assert (Hroom : (Z.of_nat (length (prune (interval self) now (calls self)))
                     < calls_per_interval self)%Z).
    { rewrite (inv_iv I), (inv_cap I), (inv_live I now Hprev).
      apply (spaced_room cap W g Hcap Hg Hshare). exact Hchain. }
    pose proof (wait_below_capacity now after self Hroom) as Hw.
    assert (I' : Inv cap W after (h ++ [after])
                   (set_calls self
                      (prune (interval self) now (calls self) ++ [after]))).
    { apply (wait_preserves cap W Hcap prev h self now after None); trivial.
      simpl. lra. }
    destruct (IH after (h ++ [after]) _ (Some after) I') as [self' Hrun];
      trivial.
    { destruct tr as [|[now' after'] tr]; trivial.
      destruct Hsp as (Hgap & _ & _). rewrite rev_unit. simpl. repeat split.
      - lra.
      - exact Hgap.
      - apply (chain_head_le g now after); trivial. }
    exists self'. cbn [wait_all length repeat]. unfold bind at 1. rewrite Hw.
    unfold bind at 1. rewrite Hrun. reflexivity.
Qed.

(** C7, the part that fails: the stamp is a second, later reading.  With
    capacity 1 and window 10, under an honest clock, a call entered at 0 and
    stamped at 1/2 and a call entered at 10.1, more than [W / cap] after the
    first arrival, make the second call sleep 2/5. *)
Lemma C7_counterexample :
  let self := {| calls_per_interval := 1; interval := 10; calls := [] |} in
  let tr := [(0, 1 # 2); (101 # 10, 21 # 2)] in
  clock_ok 0 tr self = true /\
  10 / inject_Z 1 < fst (101 # 10, 21 # 2) - fst (0, 1 # 2) /\
  exists s, fst (wait_all tr self) = Ok [None; Some s] /\ s == 2 # 5.
Proof.
  split; [vm_compute; reflexivity|]. split; [vm_compute; reflexivity|].
  eexists. split; [vm_compute; reflexivity|]. reflexivity.
Qed.

(** C7 as amended. When every call is entered more than [W / cap] after the
    stamp recorded by the call before it, no call sleeps, however many calls
    there are.  On a clock whose two readings within a call coincide this is
    the spacing of the arrivals. *)
Theorem C7_calls_spaced_from_recorded_stamp_never_sleep
    (cap : Z) (W : Q) (self : RateLimiter) (tr : list readings) :
  (0 < cap)%Z -> 0 < W ->
  init cap W = Ok self ->
  spaced_readings (W / inject_Z cap) None tr ->
  exists self', wait_all tr self = (Ok (repeat None (length tr)), self').
Proof.
  intros Hcap HW Hinit Hsp. injection Hinit as <-.
  assert (Hc : 0 < inject_Z cap) by (unfold Qlt; simpl; lia).
  assert (Hshare : W == inject_Z cap * (W / inject_Z cap)) by (field; lra).
  assert (Hg : 0 < W / inject_Z cap)
    by (apply Qlt_shift_div_l; trivial; lra).
  destruct tr as [|[now after] tr].
  - eexists. reflexivity.
  - apply (spaced_readings_no_sleep cap W (W / inject_Z cap) Hcap Hg Hshare
             ((now, after) :: tr) now [] _ None (Inv_init cap W Hcap now));
      trivial.
    simpl. split; [lra|trivial].
Qed.

Lemma C7_witness :
  spaced_readings (10 / inject_Z 1) None [(0, 1 # 2); (106 # 10, 11)] /\
  exists self',
    wait_all [(0, 1 # 2); (106 # 10, 11)]
      {| calls_per_interval := 1; interval := 10; calls := [] |}
    = (Ok (repeat None (length [(0, 1 # 2); (106 # 10, 11)])), self').
Proof.
  assert (H : spaced_readings (10 / inject_Z 1) None
                [(0, 1 # 2); (106 # 10, 11)]).
  { simpl. repeat split; vm_compute; (reflexivity || discriminate). }
  split; [exact H|].
  apply (C7_calls_spaced_from_recorded_stamp_never_sleep 1 10 _
           [(0, 1 # 2); (106 # 10, 11)]); trivial; reflexivity.
Defined.
